(** * NexGen Intelligence: the derivation pipeline of [app.py]

    A shallow embedding of the table pipeline of [app.py] (lines 62-103:
    the chain of left joins, [fillna], the deviation flags, the value
    leakage, the root cause tag and the risk score) and of the what-if
    simulator (lines 176-191), with the properties the specification
    states about them.

    Tables.  A table is the list of its rows; a column of the unified
    table [df] is a list with one entry per row, and the statements of
    [app.py] that work on whole columns are modelled column by column.
    Numeric columns hold numbers, object columns hold cells that are a
    string or a number.

    Numbers.  The numeric columns are float64.  A number is modelled as
    an exact rational or one of the three special values of float64
    ([inf], [-inf], [nan]); arithmetic on the special values and
    division by zero follow float64, while rounding, overflow and the
    sign of zero are not modelled.  A missing cell is [nan], as in
    pandas.

    Also modelled: the cleaning of column names ([clean_df]), the
    figures and group-by views of the dashboard, and the arguments of
    the process-flow diagram.  Not modelled: reading the CSV files, the
    rendering of the pages, and the formatting of the metrics ([int],
    [round]). *)

From Stdlib Require Import QArith Lqa String Ascii List Bool Lia.
From stdpp Require Import base list strings gmap sorting.

Open Scope string_scope.

(** ** Numbers *)

Inductive num : Type :=
  | Fin (q : Q)
  | PInf
  | NInf
  | NaN.

Definition qzero (q : Q) : bool := Qeq_bool q 0.
Definition qpos (q : Q) : bool := negb (Qle_bool q 0).
Definition qneg (q : Q) : bool := negb (Qle_bool 0 q).

Definition num_opp (x : num) : num :=
  match x with
  | Fin q => Fin (- q)
  | PInf => NInf
  | NInf => PInf
  | NaN => NaN
  end.

Definition num_add (x y : num) : num :=
  match x, y with
  | NaN, _ | _, NaN => NaN
  | Fin a, Fin b => Fin (a + b)
  | PInf, NInf | NInf, PInf => NaN
  | PInf, _ | _, PInf => PInf
  | NInf, _ | _, NInf => NInf
  end.

Definition num_sub (x y : num) : num := num_add x (num_opp y).

(** The product of an infinity and a finite factor [q]. *)
Definition inf_times (positive : bool) (q : Q) : num :=
  if qzero q then NaN
  else if Bool.eqb positive (qpos q) then PInf else NInf.

(** Zero has no sign here: a product such as [-10 * 0.0], [-0.0] in
    float64, is the one zero [Fin 0]. *)
Definition num_mul (x y : num) : num :=
  match x, y with
  | NaN, _ | _, NaN => NaN
  | Fin a, Fin b => Fin (a * b)
  | PInf, Fin b | Fin b, PInf => inf_times true b
  | NInf, Fin b | Fin b, NInf => inf_times false b
  | PInf, PInf | NInf, NInf => PInf
  | PInf, NInf | NInf, PInf => NInf
  end.

(** Division of float64 values as numpy performs it: a zero divisor
    raises nothing, the quotient is an infinity, or [nan] for [0/0]. *)
Definition num_div (x y : num) : num :=
  match x, y with
  | NaN, _ | _, NaN => NaN
  | Fin a, Fin b =>
      if qzero b then
        (if qpos a then PInf else if qneg a then NInf else NaN)
      else Fin (a / b)
  | Fin _, (PInf | NInf) => Fin 0
  | PInf, Fin b => if qneg b then NInf else PInf
  | NInf, Fin b => if qneg b then PInf else NInf
  | (PInf | NInf), (PInf | NInf) => NaN
  end.

(** [x < y]; every comparison with [nan] is false. *)
Definition num_ltb (x y : num) : bool :=
  match x, y with
  | NaN, _ | _, NaN => false
  | Fin a, Fin b => negb (Qle_bool b a)
  | NInf, (Fin _ | PInf) => true
  | Fin _, PInf => true
  | _, _ => false
  end.

Definition num_gtb (x y : num) : bool := num_ltb y x.

(** [x <= y] on values that are not [nan]; used to sort a column. *)
Definition num_leb (x y : num) : bool :=
  match x, y with
  | NaN, _ | _, NaN => false
  | Fin a, Fin b => Qle_bool a b
  | NInf, _ => true
  | _, PInf => true
  | _, _ => false
  end.

Definition is_nan (x : num) : bool :=
  match x with NaN => true | _ => false end.

Definition is_finite (x : num) : bool :=
  match x with Fin _ => true | _ => false end.

(** Equality of values: equal rationals, or the same special value.
    ([nan] is identified with itself here: this is equality of results,
    not the float comparison [==].) *)
Definition num_eq (x y : num) : Prop :=
  match x, y with
  | Fin a, Fin b => (a == b)%Q
  | PInf, PInf | NInf, NInf | NaN, NaN => True
  | _, _ => False
  end.

(** [0 <= x] as a proposition. *)
Definition num_nonneg (x : num) : Prop :=
  match x with
  | Fin q => (0 <= q)%Q
  | PInf => True
  | NInf | NaN => False
  end.

Declare Scope num_scope.
Delimit Scope num_scope with num.
Bind Scope num_scope with num.
Infix "+" := num_add : num_scope.
Infix "-" := num_sub : num_scope.
Infix "*" := num_mul : num_scope.
Infix "/" := num_div : num_scope.

(** A number written in the source, as a rational. *)
Definition lit (q : Q) : num := Fin q.

(** ** Cells and the five normalized tables *)

(** A cell of an object column: a string, or a number ([nan] when the
    cell is missing, [0] after [fillna]). *)
Inductive cell : Type :=
  | CNum (x : num)
  | CStr (s : string).

(** Modelled from the spec: the CSV files read by [load_data] are not
    part of the sources, so which table carries which column is taken
    from the data model of the specification (section 3).  Only the
    columns the pipeline reads are kept. *)
Record orders_row := {
  o_order_id : string;
  o_order_value : num;
  o_priority : cell }.

(** Modelled from the spec: columns of the delivery table (section 3). *)
Record delivery_row := {
  d_order_id : string;
  d_promised_delivery_days : num;
  d_actual_delivery_days : num;
  d_status : cell;
  d_delivery_cost : num;
  d_rating : num }.

(** Modelled from the spec: columns of the routes table (section 3). *)
Record routes_row := {
  r_order_id : string;
  r_carrier : cell;
  r_traffic_delay : num }.

(** Modelled from the spec: columns of the cost table (section 3). *)
Record cost_row := {
  c_order_id : string;
  c_special_handling : cell }.

(** Modelled from the spec: columns of the feedback table (section 3). *)
Record feedback_row := {
  f_order_id : string;
  f_feedback_rating : num }.

(** A row of the unified table [df]. *)
Record row := {
  order_id : string;
  order_value : num;
  priority : cell;
  promised_delivery_days : num;
  actual_delivery_days : num;
  status : cell;
  delivery_cost : num;
  rating : num;
  carrier : cell;
  traffic_delay : num;
  special_handling : cell;
  feedback_rating : num }.

(** ** The join engine (lines 62-67) *)

(** [left.merge(right, on="order_id", how="left")]: every left row, in
    order, paired with each right row of the same key, or with no right
    row when the key has no match. *)
Definition matches {R} (kr : R → string) (k : string) (rs : list R) : list R :=
  List.filter (λ r, String.eqb (kr r) k) rs.

Definition merge_left {L R} (kl : L → string) (kr : R → string)
    (ls : list L) (rs : list R) : list (L * option R) :=
  flat_map (λ l, match matches kr (kl l) rs with
                 | [] => [(l, None)]
                 | ms => (λ r, (l, Some r)) <$> ms
                 end) ls.

Definition joined : Type :=
  orders_row * option delivery_row * option routes_row
  * option cost_row * option feedback_row.

Definition merge_all (orders : list orders_row) (delivery : list delivery_row)
    (routes : list routes_row) (cost : list cost_row)
    (feedback : list feedback_row) : list joined :=
  let df1 := merge_left o_order_id d_order_id orders delivery in
  let df2 := merge_left (λ j, o_order_id (fst j)) r_order_id df1 routes in
  let df3 := merge_left (λ j, o_order_id (fst (fst j))) c_order_id df2 cost in
  merge_left (λ j, o_order_id (fst (fst (fst j)))) f_order_id df3 feedback.

(** The columns a right table contributes: its cells where a row
    matched, [nan] where none did. *)
Definition num_of {R} (f : R → num) (o : option R) : num :=
  match o with Some r => f r | None => NaN end.

Definition cell_of {R} (f : R → cell) (o : option R) : cell :=
  match o with Some r => f r | None => CNum NaN end.

Definition raw_row (j : joined) : row :=
  let '(o, d, r, c, f) := j in
  {| order_id := o_order_id o;
     order_value := o_order_value o;
     priority := o_priority o;
     promised_delivery_days := num_of d_promised_delivery_days d;
     actual_delivery_days := num_of d_actual_delivery_days d;
     status := cell_of d_status d;
     delivery_cost := num_of d_delivery_cost d;
     rating := num_of d_rating d;
     carrier := cell_of r_carrier r;
     traffic_delay := num_of r_traffic_delay r;
     special_handling := cell_of c_special_handling c;
     feedback_rating := num_of f_feedback_rating f |}.

(** [df.fillna(0)] on one cell. *)
Definition fillna_num (x : num) : num :=
  if is_nan x then lit 0 else x.

Definition fillna_cell (c : cell) : cell :=
  match c with
  | CNum x => CNum (fillna_num x)
  | CStr s => CStr s
  end.

Definition fillna_row (r : row) : row :=
  {| order_id := order_id r;
     order_value := fillna_num (order_value r);
     priority := fillna_cell (priority r);
     promised_delivery_days := fillna_num (promised_delivery_days r);
     actual_delivery_days := fillna_num (actual_delivery_days r);
     status := fillna_cell (status r);
     delivery_cost := fillna_num (delivery_cost r);
     rating := fillna_num (rating r);
     carrier := fillna_cell (carrier r);
     traffic_delay := fillna_num (traffic_delay r);
     special_handling := fillna_cell (special_handling r);
     feedback_rating := fillna_num (feedback_rating r) |}.

Definition fillna (df : list row) : list row := fillna_row <$> df.

(** The unified table after line 67. *)
Definition process_table (orders : list orders_row) (delivery : list delivery_row)
    (routes : list routes_row) (cost : list cost_row)
    (feedback : list feedback_row) : list row :=
  fillna (raw_row <$> merge_all orders delivery routes cost feedback).

(** ** Column operations *)

(** [df[c]]: one column of the table. *)
Definition col {A} (f : row → A) (df : list row) : list A := f <$> df.

(** A scalar broadcast against a column. *)
Definition scalar_mul (k : num) (s : list num) : list num := (λ x, k * x)%num <$> s.
Definition sub_scalar (s : list num) (k : num) : list num := (λ x, x - k)%num <$> s.
Definition add_scalar (s : list num) (k : num) : list num := (λ x, x + k)%num <$> s.
Definition div_scalar (s : list num) (k : num) : list num := (λ x, x / k)%num <$> s.
Definition gt_scalar (s : list num) (k : num) : list bool := (λ x, num_gtb x k) <$> s.

(** Element-wise operations on two columns of one table. *)
Definition series_gt (s t : list num) : list bool := zip_with num_gtb s t.
Definition series_div (s t : list num) : list num := zip_with num_div s t.
Definition series_add (s t : list num) : list num := zip_with num_add s t.
Definition series_or (s t : list bool) : list bool := zip_with orb s t.

(** [Series.isin(values)] on an object column. *)
Definition isin (values : list string) (c : cell) : bool :=
  match c with
  | CStr s => existsb (String.eqb s) values
  | CNum _ => false
  end.

(** [cell != s]: a number is unequal to every string. *)
Definition cell_ne (c : cell) (s : string) : bool :=
  match c with
  | CStr t => negb (String.eqb t s)
  | CNum _ => true
  end.

(** [df.loc[mask, c] += rhs]: the rows selected by [mask] get their cell
    of [rhs] added, the others keep their value. *)
Fixpoint loc_add (mask : list bool) (column rhs : list num) : list num :=
  match mask, column, rhs with
  | m :: mask', v :: column', x :: rhs' =>
      (if m then (v + x)%num else v) :: loc_add mask' column' rhs'
  | _, _, _ => []
  end.

(** [df.loc[mask, c] = value]. *)
Fixpoint loc_set {A} (mask : list bool) (column : list A) (value : A) : list A :=
  match mask, column with
  | m :: mask', v :: column' =>
      (if m then value else v) :: loc_set mask' column' value
  | _, _ => []
  end.

(** ** Statistics of a column (pandas reductions, [skipna=True]) *)

Definition dropna (s : list num) : list num :=
  List.filter (λ x, negb (is_nan x)) s.

Fixpoint insert_sorted (x : num) (s : list num) : list num :=
  match s with
  | [] => [x]
  | y :: s' => if num_leb x y then x :: s else y :: insert_sorted x s'
  end.

Definition sort_values (s : list num) : list num := foldr insert_sorted [] s.

(** [Series.sum()]. *)
Definition series_sum (s : list num) : num :=
  foldl num_add (lit 0) (dropna s).

Definition count (s : list num) : num :=
  lit (inject_Z (Z.of_nat (length (dropna s)))).

(** [Series.mean()]: [nan] on an empty column. *)
Definition series_mean (s : list num) : num :=
  (series_sum s / count s)%num.

Definition num_max (x y : num) : num := if num_ltb x y then y else x.

(** [Series.max()]: [nan] on an empty column. *)
Definition series_max (s : list num) : num :=
  match dropna s with
  | [] => NaN
  | x :: s' => foldl num_max x s'
  end.

(** [Series.median()]: the middle value of the sorted column, the mean
    of the two middle values when their number is even, [nan] on an
    empty column. *)
Definition series_median (s : list num) : num :=
  let v := sort_values (dropna s) in
  let n := length v in
  match n with
  | O => NaN
  | _ =>
      if Nat.odd n then nth (n / 2) v NaN
      else ((nth (n / 2 - 1) v NaN + nth (n / 2) v NaN) / lit 2)%num
  end.

(** ** Deviation logic (lines 72-76) *)

Definition delay (df : list row) : list bool :=
  series_gt (col actual_delivery_days df) (col promised_delivery_days df).

Definition damage (df : list row) : list bool :=
  isin ["Damaged"; "Wrong Item"] <$> col status df.

Definition cost_overrun (df : list row) : list bool :=
  gt_scalar (col delivery_cost df) (series_median (col delivery_cost df)).

Definition deviation (df : list row) : list bool :=
  series_or (series_or (delay df) (damage df)) (cost_overrun df).

(** ** Value leakage (lines 81-86) *)

Definition value_leakage (df : list row) : list num :=
  let v0 := (λ _, lit 0) <$> df in
  let v1 := loc_add (delay df) v0 (scalar_mul (lit (1 # 10)) (col order_value df)) in
  let v2 := loc_add (damage df) v1 (scalar_mul (lit (2 # 10)) (col order_value df)) in
  loc_add (cost_overrun df) v2
    (sub_scalar (col delivery_cost df) (series_median (col delivery_cost df))).

(** ** Root cause tagging (lines 91-94) *)

Definition root_cause (df : list row) : list string :=
  let c0 := (λ _, "Normal") <$> df in
  let c1 := loc_set (gt_scalar (col traffic_delay df) (lit 2)) c0 "Traffic" in
  let c2 := loc_set (isin ["GlobalTransit"] <$> col carrier df) c1
              "Carrier Reliability" in
  loc_set ((λ c, cell_ne c "None") <$> col special_handling df) c2
    "Handling Complexity".

(** ** Risk scoring (lines 99-103) *)

Definition risk_score (df : list row) : list num :=
  series_add
    (series_add
       (scalar_mul (lit (4 # 10))
          (series_div (col actual_delivery_days df)
             (add_scalar (col promised_delivery_days df) (lit 1))))
       (scalar_mul (lit (3 # 10))
          (div_scalar (col delivery_cost df)
             (series_mean (col delivery_cost df) + lit 1)%num)))
    (scalar_mul (lit (3 # 10))
       (div_scalar (col traffic_delay df)
          (series_max (col traffic_delay df) + lit 1)%num)).

(** ** The simulator (lines 176-191) *)

(** [slider / 100] for an integer slider value. *)
Definition percent (slider : Z) : num := (lit (inject_Z slider) / lit 100)%num.

Definition base_leakage (df : list row) : num := series_sum (value_leakage df).

Definition simulated_saving (base : num)
    (delay_reduction damage_reduction route_saving : Z) : num :=
  (base * (percent delay_reduction * lit (4 # 10)
           + percent damage_reduction * lit (4 # 10)
           + percent route_saving * lit (2 # 10)))%num.

(** The three metrics of the simulator page, before they are formatted
    ([int] and [round] are not modelled). *)
Record metrics := {
  projected_savings : num;
  new_baseline : num;
  roi_horizon : num }.

Definition simulator (df : list row)
    (delay_reduction damage_reduction route_saving : Z) : metrics :=
  let base := base_leakage df in
  let saving := simulated_saving base delay_reduction damage_reduction route_saving in
  {| projected_savings := saving;
     new_baseline := (base - saving)%num;
     roi_horizon := (lit 100000 / saving)%num |}.

(** The ranges of the three sliders. *)
Definition slider_ok (delay_reduction damage_reduction route_saving : Z) : Prop :=
  (0 <= delay_reduction <= 50)%Z ∧ (0 <= damage_reduction <= 50)%Z
  ∧ (0 <= route_saving <= 30)%Z.

(** ** Sample tables (the scenarios of the specification) *)

Definition one_order : list orders_row :=
  [ {| o_order_id := "1"; o_order_value := lit 1000; o_priority := CStr "High" |} ].

Definition one_delivery : list delivery_row :=
  [ {| d_order_id := "1"; d_promised_delivery_days := lit 2;
       d_actual_delivery_days := lit 5; d_status := CStr "Delivered";
       d_delivery_cost := lit 100; d_rating := lit 4 |} ].

Definition one_route : list routes_row :=
  [ {| r_order_id := "1"; r_carrier := CStr "FastShip"; r_traffic_delay := lit 1 |} ].

Definition one_cost : list cost_row :=
  [ {| c_order_id := "1"; c_special_handling := CStr "None" |} ].

Definition one_feedback : list feedback_row :=
  [ {| f_order_id := "1"; f_feedback_rating := lit 4 |} ].

Definition one_df : list row :=
  process_table one_order one_delivery one_route one_cost one_feedback.

(** The three flags of a row, given the median of the whole table. *)
Definition row_delay (r : row) : bool :=
  num_gtb (actual_delivery_days r) (promised_delivery_days r).

Definition row_damage (r : row) : bool :=
  isin ["Damaged"; "Wrong Item"] (status r).

Definition row_cost_overrun (median : num) (r : row) : bool :=
  num_gtb (delivery_cost r) median.

(** One step of the leakage accumulation: [loc[flag] += amount]. *)
Definition leak_step (flag : bool) (amount acc : num) : num :=
  if flag then (acc + amount)%num else acc.

(** What a flag contributes to the leakage of its row. *)
Definition contribution (flag : bool) (amount : num) : num :=
  if flag then amount else lit 0.

(** The risk score of one row, given the two statistics of the table. *)
Definition row_risk_score (mean_cost max_delay : num) (r : row) : num :=
  (lit (4 # 10) * (actual_delivery_days r / (promised_delivery_days r + lit 1))
   + lit (3 # 10) * (delivery_cost r / (mean_cost + lit 1))
   + lit (3 # 10) * (traffic_delay r / (max_delay + lit 1)))%num.

(** The right row a left join attaches to key [k] when the right table
    has no duplicate key. *)
Definition find_row {R} (kr : R → string) (k : string) (rs : list R) : option R :=
  head (matches kr k rs).

(** The unified row of one order when every right table is looked up
    by the order's key. *)
Definition unified_row (delivery : list delivery_row) (routes : list routes_row)
    (cost : list cost_row) (feedback : list feedback_row) (o : orders_row) : row :=
  let k := o_order_id o in
  fillna_row (raw_row (o, find_row d_order_id k delivery, find_row r_order_id k routes,
                       find_row c_order_id k cost, find_row f_order_id k feedback)).

Definition cell_missing (c : cell) : bool :=
  match c with CNum x => is_nan x | CStr _ => false end.

(** No cell of the row is missing. *)
Definition no_missing (r : row) : Prop :=
  is_nan (order_value r) = false ∧ cell_missing (priority r) = false
  ∧ is_nan (promised_delivery_days r) = false
  ∧ is_nan (actual_delivery_days r) = false
  ∧ cell_missing (status r) = false ∧ is_nan (delivery_cost r) = false
  ∧ is_nan (rating r) = false ∧ cell_missing (carrier r) = false
  ∧ is_nan (traffic_delay r) = false ∧ cell_missing (special_handling r) = false
  ∧ is_nan (feedback_rating r) = false.

(** The row of [one_df]. *)
Definition one_row : row :=
  {| order_id := "1"; order_value := lit 1000; priority := CStr "High";
     promised_delivery_days := lit 2; actual_delivery_days := lit 5;
     status := CStr "Delivered"; delivery_cost := lit 100; rating := lit 4;
     carrier := CStr "FastShip"; traffic_delay := lit 1;
     special_handling := CStr "None"; feedback_rating := lit 4 |}.

(** A late order whose value is negative (a refund, say). *)
Definition refund_order : list orders_row :=
  [ {| o_order_id := "1"; o_order_value := lit (-100); o_priority := CStr "High" |} ].

Definition refund_df : list row :=
  process_table refund_order one_delivery one_route one_cost one_feedback.

Definition refund_row : row :=
  {| order_id := "1"; order_value := lit (-100); priority := CStr "High";
     promised_delivery_days := lit 2; actual_delivery_days := lit 5;
     status := CStr "Delivered"; delivery_cost := lit 100; rating := lit 4;
     carrier := CStr "FastShip"; traffic_delay := lit 1;
     special_handling := CStr "None"; feedback_rating := lit 4 |}.

(** Two orders whose delivery costs are 50 and 150; the second is late,
    damaged and over the median cost. *)
Definition two_orders : list orders_row :=
  [ {| o_order_id := "1"; o_order_value := lit 1000; o_priority := CStr "High" |};
    {| o_order_id := "2"; o_order_value := lit 1000; o_priority := CStr "Low" |} ].

Definition two_deliveries : list delivery_row :=
  [ {| d_order_id := "1"; d_promised_delivery_days := lit 2;
       d_actual_delivery_days := lit 2; d_status := CStr "Delivered";
       d_delivery_cost := lit 50; d_rating := lit 5 |};
    {| d_order_id := "2"; d_promised_delivery_days := lit 2;
       d_actual_delivery_days := lit 5; d_status := CStr "Damaged";
       d_delivery_cost := lit 150; d_rating := lit 1 |} ].

Definition two_df : list row :=
  process_table two_orders two_deliveries one_route one_cost one_feedback.

Definition second_row : row :=
  {| order_id := "2"; order_value := lit 1000; priority := CStr "Low";
     promised_delivery_days := lit 2; actual_delivery_days := lit 5;
     status := CStr "Damaged"; delivery_cost := lit 150; rating := lit 1;
     carrier := CNum (lit 0); traffic_delay := lit 0;
     special_handling := CNum (lit 0); feedback_rating := lit 0 |}.

(** One late order of value 10000: the total leakage of the table is 1000. *)
Definition large_order : list orders_row :=
  [ {| o_order_id := "1"; o_order_value := lit 10000; o_priority := CStr "High" |} ].

Definition large_df : list row :=
  process_table large_order one_delivery one_route one_cost one_feedback.

(** ** Column names ([clean_df], lines 30-35) *)

(** A column name is read as its list of characters.  The three string
    methods are those of Python on ASCII names; a name with other
    characters is outside the model. *)
Definition code (c : ascii) : N := N_of_ascii c.

Definition ascii_only (s : string) : Prop :=
  Forall (λ c, (code c < 128)%N) (list_ascii_of_string s).

Definition is_upper (c : ascii) : bool :=
  (65 <=? code c)%N && (code c <=? 90)%N.

(** The characters [str.strip()] removes: tab to carriage return, the
    four separators 28-31 and the blank. *)
Definition is_space (c : ascii) : bool :=
  ((9 <=? code c)%N && (code c <=? 13)%N)
  || ((28 <=? code c)%N && (code c <=? 32)%N).

Definition lower_char (c : ascii) : ascii :=
  if is_upper c then ascii_of_N (code c + 32) else c.

Definition blank_to_underscore (c : ascii) : ascii :=
  if Ascii.eqb c " " then "_"%char else c.

(** [s.lower()]. *)
Definition str_lower (s : list ascii) : list ascii := lower_char <$> s.

Fixpoint lstrip (s : list ascii) : list ascii :=
  match s with
  | c :: s' => if is_space c then lstrip s' else s
  | [] => []
  end.

(** [s.strip()]. *)
Definition str_strip (s : list ascii) : list ascii :=
  reverse (lstrip (reverse (lstrip s))).

(** [s.replace(' ', '_')]. *)
Definition str_replace (s : list ascii) : list ascii :=
  blank_to_underscore <$> s.

(** [c.lower().strip().replace(' ', '_')] (line 32). *)
Definition normalize_name (c : string) : string :=
  string_of_list_ascii
    (str_replace (str_strip (str_lower (list_ascii_of_string c)))).

(** [df.rename(columns=mapping)] on one name. *)
Definition rename (mapping : gmap string string) (c : string) : string :=
  default c (mapping !! c).

(** [clean_df] on the list of column names of a table. *)
Definition clean_df (columns : list string) (mapping : gmap string string)
    : list string :=
  rename mapping <$> (normalize_name <$> columns).

(** The mapping [load_data] passes for the feedback table (line 53). *)
Definition feedback_mapping : gmap string string :=
  {[ "rating" := "feedback_rating" ]}.

(** ** Duplicate keys in the joins *)

(** The number of rows one left row becomes in a left join: one per
    right row of its key, and one when there is none. *)
Definition fanout {R} (kr : R → string) (k : string) (rs : list R) : nat :=
  Nat.max 1 (length (matches kr k rs)).

(** The number of rows of the unified table that come from one order. *)
Definition row_multiplicity (delivery : list delivery_row)
    (routes : list routes_row) (cost : list cost_row)
    (feedback : list feedback_row) (o : orders_row) : nat :=
  fanout d_order_id (o_order_id o) delivery
  * fanout r_order_id (o_order_id o) routes
  * fanout c_order_id (o_order_id o) cost
  * fanout f_order_id (o_order_id o) feedback.

(** What a left join may attach to a left row of key [k]: a right row
    of that key, or nothing when the right table has no such row. *)
Definition attached {R} (kr : R → string) (k : string) (rs : list R)
    (x : option R) : Prop :=
  match x with
  | Some r => r ∈ rs ∧ kr r = k
  | None => ∀ r, r ∈ rs → kr r ≠ k
  end.

(** [0 < x] as a proposition. *)
Definition num_pos (x : num) : Prop :=
  match x with
  | Fin q => (0 < q)%Q
  | PInf => True
  | NInf | NaN => False
  end.

(** A finite number that is not negative. *)
Definition fin_nonneg (x : num) : Prop :=
  match x with
  | Fin q => (0 <= q)%Q
  | _ => False
  end.

(** ** Counting in a column *)

Fixpoint count_if {A} (p : A → bool) (l : list A) : nat :=
  match l with
  | [] => 0
  | x :: l' => (if p x then 1 else 0) + count_if p l'
  end.

(** [Series.sum()] of a boolean column: the number of its [True]. *)
Definition count_true (s : list bool) : nat := count_if (λ b, b) s.

(** The order in which [sort_values] arranges a column. *)
Definition num_le (x y : num) : Prop := num_leb x y = true.

(** ** Group-by views (lines 122-140) *)

(** Equality of two numbers as keys. *)
Definition num_eqb (x y : num) : bool :=
  match x, y with
  | Fin a, Fin b => Qeq_bool a b
  | PInf, PInf | NInf, NInf => true
  | _, _ => false
  end.

(** Equality of two cells as group keys or dictionary keys: equal
    strings, or equal numbers; a number never equals a string. *)
Definition cell_eqb (a b : cell) : bool :=
  match a, b with
  | CStr s, CStr t => String.eqb s t
  | CNum x, CNum y => num_eqb x y
  | _, _ => false
  end.

(** The order of group keys: numbers before strings, numbers by
    value, strings by their characters. *)
Definition cell_leb (a b : cell) : bool :=
  match a, b with
  | CNum x, CNum y => num_leb x y
  | CNum _, CStr _ => true
  | CStr _, CNum _ => false
  | CStr s, CStr t => String.leb s t
  end.

Section groupby.
Context {K : Type} (eqb leb : K → K → bool) (isna : K → bool).

(** The distinct values of a list, in the order of their first
    occurrence ([pd.unique]). *)
Fixpoint unique (l : list K) : list K :=
  match l with
  | [] => []
  | k :: l' => k :: List.filter (λ k', negb (eqb k' k)) (unique l')
  end.

Fixpoint insert_by (x : K) (l : list K) : list K :=
  match l with
  | [] => [x]
  | y :: l' => if leb x y then x :: l else y :: insert_by x l'
  end.

Definition sort_by (l : list K) : list K := foldr insert_by [] l.

(** The keys of the groups: the distinct keys that are not missing,
    sorted. *)
Definition group_keys (keys : list K) : list K :=
  sort_by (unique (List.filter (λ k, negb (isna k)) keys)).

(** The values of the rows whose key is [k], in the order of the rows. *)
Definition group_values {V} (keys : list K) (vals : list V) (k : K) : list V :=
  snd <$> List.filter (λ kv, eqb (fst kv) k) (zip keys vals).

(** [groupby(keys)[vals].agg()]. *)
Definition groupby_agg {V W} (agg : list V → W) (keys : list K)
    (vals : list V) : list (K * W) :=
  (λ k, (k, agg (group_values keys vals k))) <$> group_keys keys.
End groupby.

(** [df.groupby("status")["value_leakage"].sum()] (line 130). *)
Definition leakage_by_status (df : list row) : list (cell * num) :=
  groupby_agg cell_eqb cell_leb cell_missing series_sum
    (col status df) (value_leakage df).

(** [df.groupby("carrier")["value_leakage"].sum()] (line 138). *)
Definition leakage_by_carrier (df : list row) : list (cell * num) :=
  groupby_agg cell_eqb cell_leb cell_missing series_sum
    (col carrier df) (value_leakage df).

(** Whether [x] comes before [y] in [sort_values(ascending=False)]:
    larger values first, [nan] last.  (The order pandas gives to equal
    values is not fixed; here they keep their order.) *)
Definition desc_leb (x y : cell * num) : bool :=
  is_nan (snd y) || (negb (is_nan (snd x)) && num_leb (snd y) (snd x)).

(** [....sort_values(ascending=False).head(3)] (line 138). *)
Definition top_actions (df : list row) : list (cell * num) :=
  take 3 (sort_by desc_leb (leakage_by_carrier df)).

(** The mean of a boolean column: the share of its [True]. *)
Definition bool_mean (s : list bool) : num :=
  (lit (inject_Z (Z.of_nat (count_true s)))
   / lit (inject_Z (Z.of_nat (length s))))%num.

(** [(~df['deviation']).mean()*100] (line 123, before rounding). *)
Definition perfect_order_rate (df : list row) : num :=
  (bool_mean (negb <$> deviation df) * lit 100)%num.

(** [df["deviation"].sum()] (line 125). *)
Definition active_deviations (df : list row) : nat :=
  count_true (deviation df).

(** The sum of a list of numbers, none skipped. *)
Definition total (l : list num) : num := foldr num_add (lit 0) l.

(** Keys that are pairwise different. *)
Fixpoint distinct_keys {K} (eqb : K → K → bool) (l : list K) : Prop :=
  match l with
  | [] => True
  | k :: l' => Forall (λ k', eqb k' k = false) l' ∧ distinct_keys eqb l'
  end.

(** ** Process flow (lines 149-165) *)

(** The key of a flow group: priority, carrier, status. *)
Definition flow_key : Type := cell * cell * cell.

Definition flow_priority (k : flow_key) : cell := fst (fst k).
Definition flow_carrier (k : flow_key) : cell := snd (fst k).
Definition flow_status (k : flow_key) : cell := snd k.

Definition flow_key_eqb (a b : flow_key) : bool :=
  cell_eqb (flow_priority a) (flow_priority b)
  && cell_eqb (flow_carrier a) (flow_carrier b)
  && cell_eqb (flow_status a) (flow_status b).

(** Groups are ordered by priority, then carrier, then status. *)
Definition flow_key_leb (a b : flow_key) : bool :=
  if cell_eqb (flow_priority a) (flow_priority b) then
    if cell_eqb (flow_carrier a) (flow_carrier b) then
      cell_leb (flow_status a) (flow_status b)
    else cell_leb (flow_carrier a) (flow_carrier b)
  else cell_leb (flow_priority a) (flow_priority b).

Definition flow_key_missing (k : flow_key) : bool :=
  cell_missing (flow_priority k) || cell_missing (flow_carrier k)
  || cell_missing (flow_status k).

Definition row_flow_key (r : row) : flow_key := (priority r, carrier r, status r).

(** [df.groupby(["priority", "carrier", "status"]).size()
       .reset_index(name="count")] (line 149). *)
Definition flow (df : list row) : list (flow_key * nat) :=
  groupby_agg flow_key_eqb flow_key_leb flow_key_missing (length (A:=row))
    (row_flow_key <$> df) df.

(** [list(pd.unique(flow[[...]].values.ravel()))] (line 151): the cells
    of the three key columns, row after row, each kept once. *)
Definition labels (fl : list (flow_key * nat)) : list cell :=
  unique cell_eqb
    (flat_map (λ g, [flow_priority (fst g); flow_carrier (fst g);
                     flow_status (fst g)]) fl).

(** [label_index[x]] (lines 152-158): the position of [x] among the
    labels; a cell that is no label has none (a [KeyError]). *)
Fixpoint label_index (lbls : list cell) (x : cell) : option nat :=
  match lbls with
  | [] => None
  | l :: lbls' => if cell_eqb l x then Some 0%nat else S <$> label_index lbls' x
  end.

(** The arguments of the Sankey diagram (lines 162-165). *)
Record sankey := {
  node_label : list cell;
  link_source : list nat;
  link_target : list nat;
  link_value : list nat }.

Definition process_flow (df : list row) : option sankey :=
  let fl := flow df in
  let lbls := labels fl in
  from_priority ← mapM (label_index lbls) (flow_priority ∘ fst <$> fl);
  from_carrier ← mapM (label_index lbls) (flow_carrier ∘ fst <$> fl);
  to_carrier ← mapM (label_index lbls) (flow_carrier ∘ fst <$> fl);
  to_status ← mapM (label_index lbls) (flow_status ∘ fst <$> fl);
  Some {| node_label := lbls;
          link_source := from_priority ++ from_carrier;
          link_target := to_carrier ++ to_status;
          link_value := (snd <$> fl) ++ (snd <$> fl) |}.

(** Two orders without delivery and route rows. *)
Definition bare_orders : list orders_row :=
  [ {| o_order_id := "7"; o_order_value := lit 10; o_priority := CStr "High" |};
    {| o_order_id := "8"; o_order_value := lit 20; o_priority := CStr "High" |} ].

Definition bare_df : list row := process_table bare_orders [] [] [] [].

(** The index [label_index] finds, 0 when it finds none. *)
Definition label_pos (lbls : list cell) (x : cell) : nat :=
  default 0%nat (label_index lbls x).

(** * Properties *)

(** ** Lookup lemmas for the column operations *)

Lemma loc_add_lookup (mask : list bool) (column rhs : list num) (i : nat)
    (m : bool) (v x : num) :
  mask !! i = Some m → column !! i = Some v → rhs !! i = Some x →
  loc_add mask column rhs !! i = Some (if m then (v + x)%num else v).
Proof.
  revert column rhs i.
  induction mask as [|m0 mask IH]; intros [|v0 column] [|x0 rhs] [|i];
    simpl; intros; simplify_eq; eauto.
Qed.

Lemma loc_set_lookup {A} (mask : list bool) (column : list A) (value : A)
    (i : nat) (m : bool) (v : A) :
  mask !! i = Some m → column !! i = Some v →
  loc_set mask column value !! i = Some (if m then value else v).
Proof.
  revert column i.
  induction mask as [|m0 mask IH]; intros [|v0 column] [|i];
    simpl; intros; simplify_eq; eauto.
Qed.

Lemma col_lookup {A} (f : row → A) (df : list row) (i : nat) (r : row) :
  df !! i = Some r → col f df !! i = Some (f r).
Proof. intros H. unfold col. by rewrite list_lookup_fmap, H. Qed.

Lemma const_lookup {A} (a : A) (df : list row) (i : nat) (r : row) :
  df !! i = Some r → ((λ _ : row, a) <$> df) !! i = Some a.
Proof. intros H. by rewrite list_lookup_fmap, H. Qed.

Lemma delay_lookup (df : list row) (i : nat) (r : row) :
  df !! i = Some r → delay df !! i = Some (row_delay r).
Proof.
  intros H. unfold delay, series_gt.
  rewrite lookup_zip_with.
  by rewrite (col_lookup _ _ _ _ H), (col_lookup _ _ _ _ H).
Qed.

Lemma damage_lookup (df : list row) (i : nat) (r : row) :
  df !! i = Some r → damage df !! i = Some (row_damage r).
Proof.
  intros H. unfold damage.
  by rewrite list_lookup_fmap, (col_lookup _ _ _ _ H).
Qed.

Lemma cost_overrun_lookup (df : list row) (i : nat) (r : row) :
  df !! i = Some r →
  cost_overrun df !! i
  = Some (row_cost_overrun (series_median (col delivery_cost df)) r).
Proof.
  intros H. unfold cost_overrun, gt_scalar.
  by rewrite list_lookup_fmap, (col_lookup _ _ _ _ H).
Qed.

Lemma deviation_lookup (df : list row) (i : nat) (r : row) :
  df !! i = Some r →
  deviation df !! i
  = Some (row_delay r || row_damage r
          || row_cost_overrun (series_median (col delivery_cost df)) r).
Proof.
  intros H. unfold deviation, series_or.
  rewrite !lookup_zip_with.
  by rewrite (delay_lookup _ _ _ H), (damage_lookup _ _ _ H),
    (cost_overrun_lookup _ _ _ H).
Qed.

(** ** Arithmetic of [num] *)

Lemma leak_steps_sum (b1 b2 b3 : bool) (a b c : num) :
  num_eq (leak_step b3 c (leak_step b2 b (leak_step b1 a (lit 0))))
         (contribution b1 a + contribution b2 b + contribution b3 c)%num.
Proof.
  destruct b1, b2, b3, a, b, c; simpl; trivial; ring.
Qed.

Lemma nonneg_add (a b : num) :
  num_nonneg a → num_nonneg b → num_nonneg (a + b)%num.
Proof. destruct a, b; simpl; try tauto. intros; lra. Qed.

Lemma nonneg_scale (k : Q) (x : num) :
  (0 < k)%Q → num_nonneg x → num_nonneg (lit k * x)%num.
Proof.
  intros Hk. destruct x as [q| | |]; simpl; try tauto.
  - intros Hq. apply Qmult_le_0_compat; lra.
  - intros _. unfold inf_times, qzero, qpos.
    destruct (Qeq_bool k 0) eqn:E0.
    + apply Qeq_bool_eq in E0. lra.
    + destruct (Qle_bool k 0) eqn:E1; simpl; [|exact I].
      apply Qle_bool_iff in E1. lra.
Qed.

Lemma gt_sub_nonneg (x m : num) :
  num_gtb x m = true → num_nonneg (x - m)%num.
Proof.
  unfold num_gtb. destruct x as [a| | |], m as [b| | |]; simpl; try done.
  intros H. apply negb_true_iff in H.
  destruct (Qle_bool_iff a b) as [_ Hle].
  assert (¬ (a <= b)%Q) by (intros Hab; rewrite (Hle Hab) in H; done).
  lra.
Qed.

(** ** The derived columns, row by row *)

Lemma value_leakage_lookup (df : list row) (i : nat) (r : row) :
  df !! i = Some r →
  value_leakage df !! i
  = Some (leak_step (row_cost_overrun (series_median (col delivery_cost df)) r)
            (delivery_cost r - series_median (col delivery_cost df))%num
            (leak_step (row_damage r) (lit (2 # 10) * order_value r)%num
               (leak_step (row_delay r) (lit (1 # 10) * order_value r)%num
                  (lit 0)))).
Proof.
  intros H. unfold value_leakage.
  erewrite loc_add_lookup; [reflexivity | by apply cost_overrun_lookup | |].
  - erewrite loc_add_lookup; [reflexivity | by apply damage_lookup | |].
    + erewrite loc_add_lookup; [reflexivity | by apply delay_lookup | |].
      * by eapply const_lookup.
      * unfold scalar_mul. by rewrite list_lookup_fmap, (col_lookup _ _ _ _ H).
    + unfold scalar_mul. by rewrite list_lookup_fmap, (col_lookup _ _ _ _ H).
  - unfold sub_scalar. by rewrite list_lookup_fmap, (col_lookup _ _ _ _ H).
Qed.

(** ** Deviation classifier and value leakage *)

(** C2.  In every row of the unified table, [delay] is
    [actual_delivery_days > promised_delivery_days], [damage] is
    membership of [status] in Damaged / Wrong Item, [cost_overrun] is
    [delivery_cost > median(delivery_cost)] with the median of the whole
    column, and [deviation] is the disjunction of the three. *)
Theorem deviation_is_or_of_flags (df : list row) (i : nat) (r : row) :
  df !! i = Some r →
  ∃ dl dm co : bool,
    delay df !! i = Some dl ∧ damage df !! i = Some dm
    ∧ cost_overrun df !! i = Some co
    ∧ deviation df !! i = Some (dl || dm || co)
    ∧ dl = num_gtb (actual_delivery_days r) (promised_delivery_days r)
    ∧ dm = isin ["Damaged"; "Wrong Item"] (status r)
    ∧ co = num_gtb (delivery_cost r) (series_median (col delivery_cost df)).
Proof.
  intros H. eexists _, _, _.
  split; [by apply delay_lookup|].
  split; [by apply damage_lookup|].
  split; [by apply cost_overrun_lookup|].
  split; [by apply deviation_lookup|]. done.
Qed.

Lemma deviation_is_or_of_flags_witness :
  one_df !! 0%nat = Some one_row
  ∧ ∃ dl dm co : bool,
      delay one_df !! 0%nat = Some dl ∧ damage one_df !! 0%nat = Some dm
      ∧ cost_overrun one_df !! 0%nat = Some co
      ∧ deviation one_df !! 0%nat = Some (dl || dm || co)
      ∧ dl = num_gtb (actual_delivery_days one_row) (promised_delivery_days one_row)
      ∧ dm = isin ["Damaged"; "Wrong Item"] (status one_row)
      ∧ co = num_gtb (delivery_cost one_row)
               (series_median (col delivery_cost one_df)).
Proof.
  split; [reflexivity|].
  apply (deviation_is_or_of_flags one_df 0 one_row). reflexivity.
Defined.

(** C3.  The leakage of a row starts from 0 and receives
    [0.1 * order_value] when the row is delayed, then
    [0.2 * order_value] when it is damaged, then
    [delivery_cost - median(delivery_cost)] when its cost overruns, the
    median being the one of the classifier; as a value it is the sum of
    the three contributions, all three when all three flags hold. *)
Theorem value_leakage_is_sum_of_contributions (df : list row) (i : nat) (r : row) :
  df !! i = Some r →
  let median := series_median (col delivery_cost df) in
  let dl := num_gtb (actual_delivery_days r) (promised_delivery_days r) in
  let dm := isin ["Damaged"; "Wrong Item"] (status r) in
  let co := num_gtb (delivery_cost r) median in
  ∃ v : num,
    value_leakage df !! i = Some v
    ∧ v = leak_step co (delivery_cost r - median)%num
            (leak_step dm (lit (2 # 10) * order_value r)%num
               (leak_step dl (lit (1 # 10) * order_value r)%num (lit 0)))
    ∧ num_eq v (contribution dl (lit (1 # 10) * order_value r)
                + contribution dm (lit (2 # 10) * order_value r)
                + contribution co (delivery_cost r - median))%num
    ∧ (dl = true → dm = true → co = true →
       v = (lit 0 + lit (1 # 10) * order_value r + lit (2 # 10) * order_value r
            + (delivery_cost r - median))%num)
    ∧ cost_overrun df !! i = Some co.
Proof.
  intros H median dl dm co. eexists.
  split; [by apply value_leakage_lookup|].
  split; [reflexivity|].
  split; [apply leak_steps_sum|].
  split; [|by apply cost_overrun_lookup].
  unfold row_cost_overrun, row_damage, row_delay.
  fold median. fold dl dm co. by intros -> -> ->.
Qed.

Lemma value_leakage_is_sum_of_contributions_witness :
  two_df !! 1%nat = Some second_row
  ∧ ∃ v : num, value_leakage two_df !! 1%nat = Some v ∧ num_eq v (lit 350).
Proof.
  split; [reflexivity|].
  destruct (value_leakage_is_sum_of_contributions two_df 1 second_row eq_refl)
    as (v & Hv & Hsteps & _).
  exists v. split; [exact Hv|].
  rewrite Hsteps. vm_compute. reflexivity.
Defined.

(** C4, as the code has it.  In every row whose [order_value] is not
    negative the leakage is not negative; the amount added for a cost
    overrun is [delivery_cost - median], added only where
    [delivery_cost > median], hence never negative. *)
Theorem value_leakage_nonneg (df : list row) (i : nat) (r : row) :
  df !! i = Some r →
  num_nonneg (order_value r) →
  ∃ v : num,
    value_leakage df !! i = Some v ∧ num_nonneg v
    ∧ (cost_overrun df !! i = Some true →
       num_nonneg (delivery_cost r - series_median (col delivery_cost df))%num).
Proof.
  intros H Hov. eexists. split; [by apply value_leakage_lookup|].
  assert (Hco : row_cost_overrun (series_median (col delivery_cost df)) r = true →
    num_nonneg (delivery_cost r - series_median (col delivery_cost df))%num)
    by apply gt_sub_nonneg.
  split.
  - unfold leak_step.
    assert (H0 : num_nonneg (lit 0)) by (simpl; lra).
    assert (H1 : num_nonneg (lit (1 # 10) * order_value r)%num)
      by (apply nonneg_scale; [reflexivity | done]).
    assert (H2 : num_nonneg (lit (2 # 10) * order_value r)%num)
      by (apply nonneg_scale; [reflexivity | done]).
    destruct (row_cost_overrun _ r), (row_damage r), (row_delay r);
      auto using nonneg_add.
  - rewrite (cost_overrun_lookup _ _ _ H). intros [= Heq]. auto.
Qed.

Lemma value_leakage_nonneg_witness :
  two_df !! 1%nat = Some second_row
  ∧ num_nonneg (order_value second_row)
  ∧ ∃ v : num, value_leakage two_df !! 1%nat = Some v ∧ num_nonneg v.
Proof.
  assert (Hov : num_nonneg (order_value second_row)) by (simpl; lra).
  split; [reflexivity|]. split; [exact Hov|].
  destruct (value_leakage_nonneg two_df 1 second_row eq_refl Hov)
    as (v & Hv & Hpos & _).
  exists v. split; [exact Hv | exact Hpos].
Defined.

(** C4 as stated fails: a late order of value -100 is a row of the
    unified table and its leakage is -10. *)
Lemma value_leakage_negative :
  refund_df !! 0%nat = Some refund_row
  ∧ ∃ v : num,
      value_leakage refund_df !! 0%nat = Some v
      ∧ num_eq v (lit (-10)) ∧ ¬ num_nonneg v.
Proof.
  split; [reflexivity|].
  eexists. split; [vm_compute; reflexivity|].
  split; [vm_compute; reflexivity|].
  simpl. intros H. vm_compute in H. apply H. reflexivity.
Qed.

(** ** Root cause tagging *)

Lemma cell_ne_true (c : cell) (s : string) :
  cell_ne c s = true ↔ c ≠ CStr s.
Proof.
  destruct c as [x|t]; simpl; [done|].
  rewrite negb_true_iff, String.eqb_neq. split; congruence.
Qed.

Lemma root_cause_lookup (df : list row) (i : nat) (r : row) :
  df !! i = Some r →
  root_cause df !! i
  = Some (let c0 := "Normal" in
          let c1 := if num_gtb (traffic_delay r) (lit 2) then "Traffic" else c0 in
          let c2 := if isin ["GlobalTransit"] (carrier r)
                    then "Carrier Reliability" else c1 in
          if cell_ne (special_handling r) "None"
          then "Handling Complexity" else c2).
Proof.
  intros H. unfold root_cause.
  erewrite loc_set_lookup; [reflexivity | |].
  - by rewrite list_lookup_fmap, (col_lookup _ _ _ _ H).
  - erewrite loc_set_lookup; [reflexivity | |].
    + by rewrite list_lookup_fmap, (col_lookup _ _ _ _ H).
    + erewrite loc_set_lookup; [reflexivity | |].
      * unfold gt_scalar. by rewrite list_lookup_fmap, (col_lookup _ _ _ _ H).
      * by eapply const_lookup.
Qed.

(** C5.  Every row carries exactly one of the four tags; the rules are
    applied in sequence, each overwriting the tag set before it, so a
    row whose [special_handling] differs from "None" is tagged
    Handling Complexity whatever its traffic delay and carrier are. *)
Theorem root_cause_last_rule_wins (df : list row) (i : nat) (r : row) :
  df !! i = Some r →
  ∃ tag : string,
    root_cause df !! i = Some tag
    ∧ (tag = "Normal" ∨ tag = "Traffic" ∨ tag = "Carrier Reliability"
       ∨ tag = "Handling Complexity")
    ∧ (special_handling r ≠ CStr "None" → tag = "Handling Complexity")
    ∧ (special_handling r = CStr "None" →
       tag = if isin ["GlobalTransit"] (carrier r) then "Carrier Reliability"
             else if num_gtb (traffic_delay r) (lit 2) then "Traffic"
             else "Normal").
Proof.
  intros H. eexists. split; [by apply root_cause_lookup|]. cbv zeta.
  split; [|split].
  - destruct (cell_ne (special_handling r) "None"),
      (isin ["GlobalTransit"] (carrier r)),
      (num_gtb (traffic_delay r) (lit 2)); auto.
  - intros Hne. apply cell_ne_true in Hne. by rewrite Hne.
  - intros ->. simpl. done.
Qed.

Lemma root_cause_last_rule_wins_witness :
  two_df !! 1%nat = Some second_row
  ∧ special_handling second_row ≠ CStr "None"
  ∧ root_cause two_df !! 1%nat = Some "Handling Complexity".
Proof.
  assert (Hne : special_handling second_row ≠ CStr "None") by (simpl; congruence).
  split; [reflexivity|]. split; [exact Hne|].
  destruct (root_cause_last_rule_wins two_df 1 second_row eq_refl)
    as (tag & Htag & _ & Hwin & _).
  rewrite Htag. f_equal. exact (Hwin Hne).
Defined.

(** ** Risk scoring *)

Lemma risk_score_lookup (df : list row) (i : nat) (r : row) :
  df !! i = Some r →
  risk_score df !! i
  = Some (row_risk_score (series_mean (col delivery_cost df))
            (series_max (col traffic_delay df)) r).
Proof.
  intros H. unfold risk_score, series_add, series_div, scalar_mul,
    div_scalar, add_scalar.
  rewrite !lookup_zip_with, !list_lookup_fmap, !lookup_zip_with,
    !list_lookup_fmap.
  by rewrite !(col_lookup _ _ _ _ H).
Qed.

Lemma qzero_false (q : Q) : qzero q = false ↔ ¬ (q == 0)%Q.
Proof.
  unfold qzero. split.
  - intros H Hq. apply Qeq_bool_iff in Hq. congruence.
  - intros H. destruct (Qeq_bool q 0) eqn:E; [|done].
    apply Qeq_bool_eq in E. done.
Qed.

Lemma qpos_true (q : Q) : qpos q = true ↔ (0 < q)%Q.
Proof.
  unfold qpos. rewrite negb_true_iff. split.
  - intros H. apply Qnot_le_lt. intros Hle.
    apply Qle_bool_iff in Hle. congruence.
  - intros H. destruct (Qle_bool q 0) eqn:E; [|done].
    apply Qle_bool_iff in E. lra.
Qed.

Lemma qneg_true (q : Q) : qneg q = true ↔ (q < 0)%Q.
Proof.
  unfold qneg. rewrite negb_true_iff. split.
  - intros H. apply Qnot_le_lt. intros Hle.
    apply Qle_bool_iff in Hle. congruence.
  - intros H. destruct (Qle_bool 0 q) eqn:E; [|done].
    apply Qle_bool_iff in E. lra.
Qed.

Lemma qpos_scale (k q : Q) : (0 < k)%Q → qpos (k * q) = qpos q.
Proof.
  intros Hk. apply eq_true_iff_eq. rewrite !qpos_true. split; intros H.
  - destruct (Qlt_le_dec 0 q) as [|Hle]; [done|].
    assert (k * q <= 0)%Q by nra. lra.
  - nra.
Qed.

Lemma qneg_scale (k q : Q) : (0 < k)%Q → qneg (k * q) = qneg q.
Proof.
  intros Hk. apply eq_true_iff_eq. rewrite !qneg_true. split; intros H.
  - destruct (Qlt_le_dec q 0) as [|Hle]; [done|].
    assert (0 <= k * q)%Q by nra. lra.
  - nra.
Qed.

Lemma inf_times_pos (positive : bool) (k : Q) :
  (0 < k)%Q → inf_times positive k = if positive then PInf else NInf.
Proof.
  intros Hk. unfold inf_times.
  assert (E0 : qzero k = false) by (apply qzero_false; lra).
  assert (E1 : qpos k = true) by (by apply qpos_true).
  rewrite E0, E1. by destruct positive.
Qed.

(** With a positive factor, scaling the quotient and scaling the
    dividend give the same value. *)
Lemma scale_div_assoc (k : Q) (a b : num) :
  (0 < k)%Q → num_eq (lit k * (a / b))%num (lit k * a / b)%num.
Proof.
  intros Hk. unfold lit.
  destruct a as [a| | |], b as [b| | |]; simpl;
    rewrite ?inf_times_pos by done; simpl; trivial; try ring.
  - rewrite qpos_scale, qneg_scale by done.
    destruct (qzero b) eqn:Eb.
    + destruct (qpos a); simpl; rewrite ?inf_times_pos by done; [done|].
      destruct (qneg a); simpl; rewrite ?inf_times_pos by done; done.
    + simpl. apply qzero_false in Eb. field. done.
  - destruct (qneg b); simpl; rewrite ?inf_times_pos by done; done.
  - destruct (qneg b); simpl; rewrite ?inf_times_pos by done; done.
Qed.

Lemma num_eq_add (a a' b b' : num) :
  num_eq a a' → num_eq b b' → num_eq (a + b)%num (a' + b')%num.
Proof.
  destruct a, a', b, b'; simpl; try tauto. intros Ha Hb. by rewrite Ha, Hb.
Qed.

(** C7.  The risk score of a row is
    [0.4 * actual / (promised + 1) + 0.3 * cost / (mean(cost) + 1)
     + 0.3 * traffic / (max(traffic) + 1)]; the mean and the maximum are
    those of the whole columns, the same for every row, and nothing
    bounds the sum. *)
Theorem risk_score_is_weighted_sum (df : list row) (i : nat) (r : row) :
  df !! i = Some r →
  let mean_cost := series_mean (col delivery_cost df) in
  let max_delay := series_max (col traffic_delay df) in
  ∃ v : num,
    risk_score df !! i = Some v
    ∧ v = (lit (4 # 10) * (actual_delivery_days r / (promised_delivery_days r + lit 1))
           + lit (3 # 10) * (delivery_cost r / (mean_cost + lit 1))
           + lit (3 # 10) * (traffic_delay r / (max_delay + lit 1)))%num
    ∧ num_eq v
        (lit (4 # 10) * actual_delivery_days r / (promised_delivery_days r + lit 1)
         + lit (3 # 10) * delivery_cost r / (mean_cost + lit 1)
         + lit (3 # 10) * traffic_delay r / (max_delay + lit 1))%num.
Proof.
  intros H mean_cost max_delay. eexists.
  split; [by apply risk_score_lookup|].
  split; [reflexivity|].
  unfold row_risk_score.
  repeat apply num_eq_add; by apply scale_div_assoc.
Qed.

Lemma risk_score_is_weighted_sum_witness :
  one_df !! 0%nat = Some one_row
  ∧ ∃ v : num, risk_score one_df !! 0%nat = Some v ∧ num_eq v (lit (6749 # 6060)).
Proof.
  split; [reflexivity|].
  destruct (risk_score_is_weighted_sum one_df 0 one_row eq_refl)
    as (v & Hv & Hformula & _).
  exists v. split; [exact Hv|].
  rewrite Hformula. vm_compute. reflexivity.
Defined.

(** ** The join engine *)

Lemma matches_elem {R} (kr : R → string) (k : string) (rs : list R) (r : R) :
  r ∈ matches kr k rs → r ∈ rs ∧ kr r = k.
Proof.
  unfold matches. rewrite !list_elem_of_In, filter_In, String.eqb_eq. done.
Qed.

Lemma matches_nil {R} (kr : R → string) (k : string) (rs : list R) :
  (∀ r, r ∈ rs → kr r ≠ k) → matches kr k rs = [].
Proof.
  intros H. destruct (matches kr k rs) as [|r ms] eqn:E; [done|].
  assert (Hr : r ∈ matches kr k rs) by (rewrite E; left).
  apply matches_elem in Hr as [Hin Hk]. by destruct (H r Hin).
Qed.

Lemma matches_nodup {R} (kr : R → string) (k : string) (rs : list R) :
  NoDup (kr <$> rs) → (length (matches kr k rs) ≤ 1)%nat.
Proof.
  induction rs as [|r rs IH]; simpl; [lia|].
  intros Hnd. apply NoDup_cons in Hnd as [Hnotin Hnd].
  destruct (String.eqb (kr r) k) eqn:E; [|by apply IH].
  apply String.eqb_eq in E. subst k.
  change (List.filter _ rs) with (matches kr (kr r) rs).
  rewrite matches_nil; [simpl; lia|].
  intros r' Hin Heq. apply Hnotin. rewrite <- Heq.
  apply list_elem_of_fmap. eauto.
Qed.

Lemma merge_left_nodup {L R} (kl : L → string) (kr : R → string)
    (ls : list L) (rs : list R) :
  NoDup (kr <$> rs) →
  merge_left kl kr ls rs = (λ l, (l, find_row kr (kl l) rs)) <$> ls.
Proof.
  intros Hnd. unfold merge_left, find_row.
  induction ls as [|l ls IH]; [done|].
  cbn [flat_map]. rewrite IH. rewrite fmap_cons.
  pose proof (matches_nodup kr (kl l) rs Hnd) as Hlen.
  destruct (matches kr (kl l) rs) as [|m [|m' ms]]; simpl in *; try done. lia.
Qed.

Lemma merge_left_elem {L R} (kl : L → string) (kr : R → string)
    (ls : list L) (rs : list R) (l : L) (o : option R) :
  (l, o) ∈ merge_left kl kr ls rs →
  l ∈ ls ∧ ((∀ r, r ∈ rs → kr r ≠ kl l) → o = None).
Proof.
  unfold merge_left. induction ls as [|a ls IH]; cbn [flat_map].
  - intros H. by apply elem_of_nil in H.
  - rewrite elem_of_app. intros [H|H].
    + destruct (matches kr (kl a) rs) as [|m ms] eqn:E.
      * apply list_elem_of_singleton in H. simplify_eq.
        split; [left | done].
      * apply list_elem_of_fmap in H as (r & Heq & Hr). simplify_eq.
        split; [left|]. intros Hno.
        rewrite <- E in Hr. apply matches_elem in Hr as [Hin Hk].
        by destruct (Hno r Hin).
    + destruct (IH H) as [Hin Hnone]. split; [by right | done].
Qed.

Lemma fillna_row_no_missing (r : row) : no_missing (fillna_row r).
Proof.
  assert (Hn : ∀ x, is_nan (fillna_num x) = false) by (by intros []).
  assert (Hc : ∀ c, cell_missing (fillna_cell c) = false)
    by (intros [x|s]; simpl; auto).
  unfold no_missing. simpl. repeat split; auto.
Qed.

Lemma process_table_nodup (orders : list orders_row) (delivery : list delivery_row)
    (routes : list routes_row) (cost : list cost_row)
    (feedback : list feedback_row) :
  NoDup (d_order_id <$> delivery) → NoDup (r_order_id <$> routes) →
  NoDup (c_order_id <$> cost) → NoDup (f_order_id <$> feedback) →
  process_table orders delivery routes cost feedback
  = unified_row delivery routes cost feedback <$> orders.
Proof.
  intros Hd Hr Hc Hf. unfold process_table, fillna, merge_all.
  rewrite !merge_left_nodup by done.
  rewrite <- !list_fmap_compose. reflexivity.
Qed.

Lemma find_row_unmatched {R} (kr : R → string) (k : string) (rs : list R) :
  (∀ r, r ∈ rs → kr r ≠ k) → find_row kr k rs = None.
Proof. intros H. unfold find_row. by rewrite matches_nil. Qed.

(** C6.  The unified table is [orders] left-joined with [delivery],
    [routes], [cost] and [feedback] in this order, each on [order_id].
    When no right table repeats an [order_id], it has as many rows as
    [orders], its i-th row is the i-th order with the cells of the right
    rows of the same key, and after [fillna(0)] no cell is missing: the
    cells of a right table without a row for the key are 0, numeric
    and categorical alike. *)
Theorem left_joins_preserve_orders (orders : list orders_row)
    (delivery : list delivery_row) (routes : list routes_row)
    (cost : list cost_row) (feedback : list feedback_row) :
  NoDup (d_order_id <$> delivery) → NoDup (r_order_id <$> routes) →
  NoDup (c_order_id <$> cost) → NoDup (f_order_id <$> feedback) →
  let df := process_table orders delivery routes cost feedback in
  length df = length orders
  ∧ (∀ (i : nat) (o : orders_row), orders !! i = Some o →
       ∃ r : row,
         df !! i = Some r
         ∧ r = unified_row delivery routes cost feedback o
         ∧ order_id r = o_order_id o
         ∧ order_value r = fillna_num (o_order_value o)
         ∧ priority r = fillna_cell (o_priority o)
         ∧ ((∀ d, d ∈ delivery → d_order_id d ≠ o_order_id o) →
            promised_delivery_days r = lit 0 ∧ actual_delivery_days r = lit 0
            ∧ status r = CNum (lit 0) ∧ delivery_cost r = lit 0
            ∧ rating r = lit 0)
         ∧ ((∀ t, t ∈ routes → r_order_id t ≠ o_order_id o) →
            carrier r = CNum (lit 0) ∧ traffic_delay r = lit 0)
         ∧ ((∀ c, c ∈ cost → c_order_id c ≠ o_order_id o) →
            special_handling r = CNum (lit 0))
         ∧ ((∀ f, f ∈ feedback → f_order_id f ≠ o_order_id o) →
            feedback_rating r = lit 0))
  ∧ (∀ r : row, r ∈ df → no_missing r).
Proof.
  intros Hd Hr Hc Hf df.
  assert (Hdf : df = unified_row delivery routes cost feedback <$> orders)
    by (by apply process_table_nodup).
  split; [by rewrite Hdf, length_fmap|]. split.
  - intros i o Ho. eexists. split; [by rewrite Hdf, list_lookup_fmap, Ho|].
    split; [reflexivity|]. unfold unified_row. simpl.
    repeat split; try intros Hno; try done;
      match goal with
      | Hno : ∀ x, x ∈ _ → _ ≠ _ |- _ => by rewrite (find_row_unmatched _ _ _ Hno)
      end.
  - intros r Hin. unfold df, process_table, fillna in Hin.
    apply list_elem_of_fmap in Hin as (r' & -> & _).
    apply fillna_row_no_missing.
Qed.

Lemma left_joins_preserve_orders_witness :
  NoDup (d_order_id <$> two_deliveries) ∧ NoDup (r_order_id <$> one_route)
  ∧ NoDup (c_order_id <$> one_cost) ∧ NoDup (f_order_id <$> one_feedback)
  ∧ length two_df = length two_orders
  ∧ ∀ r : row, r ∈ two_df → no_missing r.
Proof.
  assert (Hd : NoDup (d_order_id <$> two_deliveries))
    by (apply (bool_decide_unpack _); vm_compute; exact I).
  assert (Hr : NoDup (r_order_id <$> one_route))
    by (apply (bool_decide_unpack _); vm_compute; exact I).
  assert (Hc : NoDup (c_order_id <$> one_cost))
    by (apply (bool_decide_unpack _); vm_compute; exact I).
  assert (Hf : NoDup (f_order_id <$> one_feedback))
    by (apply (bool_decide_unpack _); vm_compute; exact I).
  repeat (split; [assumption|]).
  destruct (left_joins_preserve_orders two_orders two_deliveries one_route
              one_cost one_feedback Hd Hr Hc Hf) as (Hlen & _ & Hfill).
  split; [exact Hlen | exact Hfill].
Defined.

(** C10.  A row of the unified table whose [order_id] has no row in the
    cost table has [special_handling] filled with the number 0, which is
    not the string "None"; its tag is Handling Complexity, whatever its
    traffic delay and carrier are. *)
Theorem unmatched_cost_is_handling_complexity (orders : list orders_row)
    (delivery : list delivery_row) (routes : list routes_row)
    (cost : list cost_row) (feedback : list feedback_row) (i : nat) (r : row) :
  let df := process_table orders delivery routes cost feedback in
  df !! i = Some r →
  (∀ c, c ∈ cost → c_order_id c ≠ order_id r) →
  special_handling r = CNum (lit 0)
  ∧ cell_ne (special_handling r) "None" = true
  ∧ root_cause df !! i = Some "Handling Complexity".
Proof.
  intros df Hi Hno.
  assert (Hsh : special_handling r = CNum (lit 0)).
  { assert (Hin : r ∈ df) by (apply list_elem_of_lookup; eauto).
    unfold df, process_table, fillna, merge_all in Hin.
    apply list_elem_of_fmap in Hin as (r' & -> & Hin).
    apply list_elem_of_fmap in Hin as (j & -> & Hin).
    destruct j as [[[[o d] t] c] f].
    apply merge_left_elem in Hin as [Hin _].
    apply merge_left_elem in Hin as [_ Hnone].
    simpl in *. by rewrite (Hnone Hno). }
  split; [exact Hsh|]. split; [by rewrite Hsh|].
  rewrite (root_cause_lookup _ _ _ Hi). cbv zeta. by rewrite Hsh.
Qed.

Lemma unmatched_cost_is_handling_complexity_witness :
  two_df !! 1%nat = Some second_row
  ∧ (∀ c, c ∈ one_cost → c_order_id c ≠ order_id second_row)
  ∧ root_cause two_df !! 1%nat = Some "Handling Complexity".
Proof.
  assert (Hno : ∀ c, c ∈ one_cost → c_order_id c ≠ order_id second_row).
  { intros c Hc. apply list_elem_of_singleton in Hc. subst c. simpl. congruence. }
  split; [reflexivity|]. split; [exact Hno|].
  exact (proj2 (proj2 (unmatched_cost_is_handling_complexity two_orders
    two_deliveries one_route one_cost one_feedback 1 second_row eq_refl Hno))).
Defined.

(** ** The simulator *)

Lemma dropna_id (s : list num) :
  (∀ v, v ∈ s → is_nan v = false) → dropna s = s.
Proof.
  unfold dropna. induction s as [|x s IH]; simpl; [done|]. intros H.
  rewrite (H x) by left. simpl. f_equal. apply IH.
  intros v Hv. apply H. by right.
Qed.

Lemma loc_add_lookup_inv (mask : list bool) (column rhs : list num)
    (i : nat) (y : num) :
  loc_add mask column rhs !! i = Some y → is_Some (column !! i).
Proof.
  revert column rhs i.
  induction mask as [|m0 mask IH]; intros [|v0 column] [|x0 rhs] [|i];
    simpl; intros; simplify_eq; eauto.
Qed.

Lemma value_leakage_row (df : list row) (i : nat) (v : num) :
  value_leakage df !! i = Some v → is_Some (df !! i).
Proof.
  unfold value_leakage. intros H.
  apply loc_add_lookup_inv in H as [v2 H].
  apply loc_add_lookup_inv in H as [v1 H].
  apply loc_add_lookup_inv in H as [v0 H].
  rewrite list_lookup_fmap in H. destruct (df !! i); [eauto | done].
Qed.

(** With finite order values and delivery costs no leakage is [nan]. *)
Lemma value_leakage_not_nan (df : list row) :
  (∀ r, r ∈ df →
     is_finite (order_value r) = true ∧ is_finite (delivery_cost r) = true) →
  ∀ v, v ∈ value_leakage df → is_nan v = false.
Proof.
  intros Hfin v Hv. apply list_elem_of_lookup in Hv as [i Hi].
  destruct (value_leakage_row _ _ _ Hi) as [r Hr].
  rewrite (value_leakage_lookup _ _ _ Hr) in Hi. simplify_eq.
  destruct (Hfin r) as [Hov Hdc]; [apply list_elem_of_lookup; eauto|].
  unfold row_cost_overrun, num_gtb.
  destruct (order_value r) as [ov| | |], (delivery_cost r) as [dc| | |]; try done.
  destruct (row_delay r), (row_damage r),
    (series_median (col delivery_cost df)) as [md| | |]; simpl; try done;
    by destruct (negb (Qle_bool dc md)).
Qed.

(** C8.  For all slider values the projected saving is
    [base_leakage * (delay_reduction/100 * 0.4 + damage_reduction/100 * 0.4
     + route_saving/100 * 0.2)] and the new baseline is
    [base_leakage - simulated_saving], [base_leakage] being the sum of
    the [value_leakage] column over all rows (of a table with finite
    order values and delivery costs none is skipped as [nan]); with a
    base leakage of 1000 and reductions 20, 10 and 15 the saving is 150
    and the new baseline 850. *)
Theorem simulator_saving_and_baseline (df : list row)
    (delay_reduction damage_reduction route_saving : Z) :
  let base := series_sum (value_leakage df) in
  let m := simulator df delay_reduction damage_reduction route_saving in
  projected_savings m
  = (base * (lit (inject_Z delay_reduction) / lit 100 * lit (4 # 10)
             + lit (inject_Z damage_reduction) / lit 100 * lit (4 # 10)
             + lit (inject_Z route_saving) / lit 100 * lit (2 # 10)))%num
  ∧ new_baseline m = (base - projected_savings m)%num
  ∧ ((∀ r, r ∈ df →
        is_finite (order_value r) = true ∧ is_finite (delivery_cost r) = true) →
     base = foldl num_add (lit 0) (value_leakage df))
  ∧ (num_eq base (lit 1000) →
     delay_reduction = 20%Z → damage_reduction = 10%Z → route_saving = 15%Z →
     num_eq (projected_savings m) (lit 150)
     ∧ num_eq (new_baseline m) (lit 850)).
Proof.
  intros base m. split; [reflexivity|]. split; [reflexivity|]. split.
  - intros Hfin. unfold base, series_sum.
    by rewrite dropna_id by (by apply value_leakage_not_nan).
  - intros Hbase -> -> ->. unfold m, simulator, base_leakage. fold base.
    destruct base as [b| | |]; simpl in Hbase; try done.
    unfold simulated_saving, percent, lit. simpl.
    split; rewrite Hbase; reflexivity.
Qed.

Lemma simulator_saving_and_baseline_witness :
  (∀ r, r ∈ large_df →
     is_finite (order_value r) = true ∧ is_finite (delivery_cost r) = true)
  ∧ num_eq (series_sum (value_leakage large_df)) (lit 1000)
  ∧ series_sum (value_leakage large_df)
    = foldl num_add (lit 0) (value_leakage large_df)
  ∧ num_eq (projected_savings (simulator large_df 20 10 15)) (lit 150)
  ∧ num_eq (new_baseline (simulator large_df 20 10 15)) (lit 850).
Proof.
  assert (Hfin : ∀ r, r ∈ large_df →
    is_finite (order_value r) = true ∧ is_finite (delivery_cost r) = true).
  { intros r Hr. vm_compute in Hr. apply list_elem_of_singleton in Hr.
    subst r. split; reflexivity. }
  assert (Hbase : num_eq (series_sum (value_leakage large_df)) (lit 1000))
    by (vm_compute; reflexivity).
  destruct (simulator_saving_and_baseline large_df 20 10 15)
    as (_ & _ & Hsum & Hex).
  split; [exact Hfin|]. split; [exact Hbase|]. split; [exact (Hsum Hfin)|].
  exact (Hex Hbase eq_refl eq_refl eq_refl).
Defined.




(** ** The empty table *)

(** C9 as stated fails: on five empty tables the run goes through, the
    median and the mean of [delivery_cost] and the maximum of
    [traffic_delay] are [nan], and the derived columns are computed
    (they are empty). *)
Lemma empty_tables_give_nan_statistics :
  let df := process_table [] [] [] [] [] in
  df = []
  ∧ series_median (col delivery_cost df) = NaN
  ∧ series_mean (col delivery_cost df) = NaN
  ∧ series_max (col traffic_delay df) = NaN
  ∧ cost_overrun df = [] ∧ value_leakage df = [] ∧ risk_score df = [].
Proof. vm_compute. repeat split. Qed.

(** C9, as the code has it.  When the unified table has no row (that is,
    when [orders] has none) nothing fails: the median and the mean of
    [delivery_cost] and the maximum of [traffic_delay] evaluate to
    [nan], every derived column is empty, so no row receives a [nan],
    and the total leakage is 0. *)
Theorem empty_table_is_not_rejected (delivery : list delivery_row)
    (routes : list routes_row) (cost : list cost_row)
    (feedback : list feedback_row) :
  let df := process_table [] delivery routes cost feedback in
  df = []
  ∧ series_median (col delivery_cost df) = NaN
  ∧ series_mean (col delivery_cost df) = NaN
  ∧ series_max (col traffic_delay df) = NaN
  ∧ delay df = [] ∧ damage df = [] ∧ cost_overrun df = [] ∧ deviation df = []
  ∧ value_leakage df = [] ∧ root_cause df = [] ∧ risk_score df = []
  ∧ base_leakage df = lit 0.
Proof. repeat split. Qed.

(** ** Column names *)

Lemma lower_char_idem (c : ascii) : lower_char (lower_char c) = lower_char c.
Proof. by destruct c as [[] [] [] [] [] [] [] []]. Qed.

Lemma lower_char_space (c : ascii) : is_space (lower_char c) = is_space c.
Proof. by destruct c as [[] [] [] [] [] [] [] []]. Qed.

Lemma lower_char_not_upper (c : ascii) : is_upper (lower_char c) = false.
Proof. by destruct c as [[] [] [] [] [] [] [] []]. Qed.

Lemma lower_blank_commute (c : ascii) :
  lower_char (blank_to_underscore c) = blank_to_underscore (lower_char c).
Proof. by destruct c as [[] [] [] [] [] [] [] []]. Qed.

Lemma blank_to_underscore_idem (c : ascii) :
  blank_to_underscore (blank_to_underscore c) = blank_to_underscore c.
Proof. by destruct c as [[] [] [] [] [] [] [] []]. Qed.

Lemma blank_to_underscore_space (c : ascii) :
  is_space c = false → is_space (blank_to_underscore c) = false.
Proof. by destruct c as [[] [] [] [] [] [] [] []]. Qed.

Lemma blank_to_underscore_not_blank (c : ascii) :
  Ascii.eqb (blank_to_underscore c) " " = false.
Proof. by destruct c as [[] [] [] [] [] [] [] []]. Qed.

Lemma blank_to_underscore_keeps_case (c : ascii) :
  is_upper c = false → is_upper (blank_to_underscore c) = false.
Proof. by destruct c as [[] [] [] [] [] [] [] []]. Qed.

(** A string that does not begin with a character [strip] removes. *)
Definition starts_ok (s : list ascii) : Prop :=
  match s with c :: _ => is_space c = false | [] => True end.

Lemma lstrip_starts_ok (s : list ascii) : starts_ok (lstrip s).
Proof.
  induction s as [|c s IH]; simpl; [done|].
  destruct (is_space c) eqn:E; [done | exact E].
Qed.

Lemma lstrip_id (s : list ascii) : starts_ok s → lstrip s = s.
Proof. destruct s as [|c s]; simpl; [done|]. by intros ->. Qed.

Lemma lstrip_suffix (s : list ascii) : ∃ p, s = (p ++ lstrip s)%list.
Proof.
  induction s as [|c s [p IH]]; simpl; [by exists []|].
  destruct (is_space c); [|by exists []].
  exists (c :: p). simpl. by f_equal.
Qed.

Lemma lstrip_fmap (g : ascii → ascii) (s : list ascii) :
  (∀ c, is_space (g c) = is_space c) → lstrip (g <$> s) = g <$> lstrip s.
Proof.
  intros Hg. induction s as [|c s IH]; [done|].
  rewrite fmap_cons. simpl. rewrite Hg. by destruct (is_space c).
Qed.

Lemma str_strip_fmap (g : ascii → ascii) (s : list ascii) :
  (∀ c, is_space (g c) = is_space c) → str_strip (g <$> s) = g <$> str_strip s.
Proof.
  intros Hg. unfold str_strip.
  by rewrite lstrip_fmap, <- fmap_reverse, lstrip_fmap, fmap_reverse.
Qed.

Lemma str_strip_id (s : list ascii) :
  starts_ok s → starts_ok (reverse s) → str_strip s = s.
Proof.
  intros H1 H2. unfold str_strip.
  by rewrite (lstrip_id s), (lstrip_id (reverse s)), reverse_involutive.
Qed.

Lemma str_strip_starts_ok (s : list ascii) : starts_ok (str_strip s).
Proof.
  unfold str_strip. pose proof (lstrip_starts_ok s) as Ha.
  destruct (lstrip_suffix (reverse (lstrip s))) as [p Hp].
  assert (Hq : lstrip s
               = (reverse (lstrip (reverse (lstrip s))) ++ reverse p)%list).
  { rewrite <- (reverse_involutive (lstrip s)) at 1.
    rewrite Hp at 1. by rewrite reverse_app. }
  destruct (reverse (lstrip (reverse (lstrip s)))) as [|c t]; [done|].
  rewrite Hq in Ha. exact Ha.
Qed.

Lemma str_strip_ends_ok (s : list ascii) : starts_ok (reverse (str_strip s)).
Proof. unfold str_strip. rewrite reverse_involutive. apply lstrip_starts_ok. Qed.

Lemma starts_ok_replace (s : list ascii) : starts_ok s → starts_ok (str_replace s).
Proof. destruct s as [|c s]; simpl; [done|]. apply blank_to_underscore_space. Qed.

Lemma Forall_lstrip (P : ascii → Prop) (s : list ascii) :
  Forall P s → Forall P (lstrip s).
Proof.
  intros H. destruct (lstrip_suffix s) as [p Hp]. rewrite Hp in H.
  by apply Forall_app in H as [_ H].
Qed.

Lemma Forall_str_strip (P : ascii → Prop) (s : list ascii) :
  Forall P s → Forall P (str_strip s).
Proof.
  intros H. unfold str_strip.
  apply Forall_reverse, Forall_lstrip, Forall_reverse, Forall_lstrip, H.
Qed.

Lemma str_replace_lower (s : list ascii) :
  str_lower (str_replace s) = str_replace (str_lower s).
Proof.
  unfold str_lower, str_replace. rewrite <- !list_fmap_compose.
  apply list_fmap_ext. intros _ c _. apply lower_blank_commute.
Qed.

Lemma normalize_chars_idem (s : list ascii) :
  str_replace (str_strip (str_lower (str_replace (str_strip (str_lower s)))))
  = str_replace (str_strip (str_lower s)).
Proof.
  rewrite str_replace_lower.
  unfold str_lower at 1. rewrite <- (str_strip_fmap lower_char)
    by apply lower_char_space.
  fold (str_lower (str_lower s)).
  assert (Hl : str_lower (str_lower s) = str_lower s).
  { unfold str_lower. rewrite <- list_fmap_compose.
    apply list_fmap_ext. intros _ c _. apply lower_char_idem. }
  rewrite Hl. set (t := str_strip (str_lower s)).
  rewrite (str_strip_id (str_replace t)).
  - unfold str_replace. rewrite <- list_fmap_compose.
    apply list_fmap_ext. intros _ c _. apply blank_to_underscore_idem.
  - apply starts_ok_replace, str_strip_starts_ok.
  - unfold str_replace. rewrite <- fmap_reverse.
    apply starts_ok_replace, str_strip_ends_ok.
Qed.

(** X1.  Cleaning a column name twice gives what cleaning it once
    gives: [lower], [strip] and [replace] leave a cleaned name as it
    is.  (ASCII names.) *)
Theorem normalize_name_idempotent (c : string) :
  ascii_only c →
  normalize_name (normalize_name c) = normalize_name c.
Proof.
  intros _. unfold normalize_name.
  by rewrite list_ascii_of_string_of_list_ascii, normalize_chars_idem.
Qed.

Lemma normalize_name_idempotent_witness :
  ascii_only " Order Value INR "
  ∧ normalize_name " Order Value INR " = "order_value_inr"
  ∧ normalize_name (normalize_name " Order Value INR ")
    = normalize_name " Order Value INR ".
Proof.
  assert (Ha : ascii_only " Order Value INR ")
    by (unfold ascii_only; simpl; repeat constructor).
  split; [exact Ha|]. split; [reflexivity|].
  exact (normalize_name_idempotent " Order Value INR " Ha).
Defined.

(** X2.  A cleaned column name holds no blank and no upper-case
    letter, and neither begins nor ends with a character that [strip]
    removes.  (ASCII names.) *)
Theorem normalize_name_shape (c : string) :
  ascii_only c →
  let s := list_ascii_of_string (normalize_name c) in
  Forall (λ a, a ≠ " "%char ∧ is_upper a = false) s
  ∧ starts_ok s ∧ starts_ok (reverse s).
Proof.
  intros _ s. unfold s, normalize_name.
  rewrite list_ascii_of_string_of_list_ascii. split; [|split].
  - unfold str_replace. apply Forall_fmap.
    apply Forall_str_strip. unfold str_lower. apply Forall_fmap.
    apply Forall_true. intros a. simpl. split.
    + intros Heq. pose proof (blank_to_underscore_not_blank (lower_char a)) as H.
      rewrite Heq in H. done.
    + apply blank_to_underscore_keeps_case, lower_char_not_upper.
  - apply starts_ok_replace, str_strip_starts_ok.
  - unfold str_replace. rewrite <- fmap_reverse.
    apply starts_ok_replace, str_strip_ends_ok.
Qed.

Lemma normalize_name_shape_witness :
  ascii_only "Delivery Status "
  ∧ normalize_name "Delivery Status " = "delivery_status"
  ∧ Forall (λ a, a ≠ " "%char ∧ is_upper a = false)
      (list_ascii_of_string (normalize_name "Delivery Status ")).
Proof.
  assert (Ha : ascii_only "Delivery Status ")
    by (unfold ascii_only; simpl; repeat constructor).
  split; [exact Ha|]. split; [reflexivity|].
  exact (proj1 (normalize_name_shape "Delivery Status " Ha)).
Defined.

(** X3.  Whatever the columns of the feedback file are, the cleaned
    feedback table has no column named [rating]: a column of that name
    is renamed to [feedback_rating], so that it cannot collide with the
    [rating] of the delivery table in the join. *)
Theorem feedback_has_no_rating_column (columns : list string) :
  ("rating" ∉ clean_df columns feedback_mapping)
  ∧ (∀ c, c ∈ columns → normalize_name c = "rating" →
          "feedback_rating" ∈ clean_df columns feedback_mapping).
Proof.
  unfold clean_df, feedback_mapping. split.
  - intros Hin. apply list_elem_of_fmap in Hin as (c & Hc & _).
    unfold rename in Hc. destruct (decide (c = "rating")) as [->|Hne].
    + by rewrite lookup_singleton_eq in Hc.
    + rewrite lookup_singleton_ne in Hc by done. simpl in Hc. congruence.
  - intros c Hc Hn. apply list_elem_of_fmap. exists "rating". split.
    + unfold rename. by rewrite lookup_singleton_eq.
    + apply list_elem_of_fmap. eauto.
Qed.

Lemma feedback_has_no_rating_column_witness :
  "Rating" ∈ ["Order_ID"; "Rating"; "Feedback Text"]
  ∧ normalize_name "Rating" = "rating"
  ∧ "feedback_rating"
    ∈ clean_df ["Order_ID"; "Rating"; "Feedback Text"] feedback_mapping.
Proof.
  assert (Hin : "Rating" ∈ ["Order_ID"; "Rating"; "Feedback Text"])
    by (right; left).
  split; [exact Hin|]. split; [reflexivity|].
  exact (proj2 (feedback_has_no_rating_column
                  ["Order_ID"; "Rating"; "Feedback Text"]) "Rating" Hin eq_refl).
Defined.

(** ** The joins without the uniqueness of keys *)

Lemma merge_left_app {L R} (kl : L → string) (kr : R → string)
    (ls1 ls2 : list L) (rs : list R) :
  merge_left kl kr (ls1 ++ ls2) rs
  = (merge_left kl kr ls1 rs ++ merge_left kl kr ls2 rs)%list.
Proof. unfold merge_left. apply flat_map_app. Qed.

Lemma merge_left_one {L R} (kl : L → string) (kr : R → string)
    (l : L) (rs : list R) :
  length (merge_left kl kr [l] rs) = fanout kr (kl l) rs
  ∧ Forall (λ p, fst p = l) (merge_left kl kr [l] rs).
Proof.
  unfold merge_left, fanout. cbn [flat_map]. rewrite app_nil_r.
  destruct (matches kr (kl l) rs) as [|m ms].
  - split; [done|]. by repeat constructor.
  - rewrite length_fmap. split; [simpl; lia|].
    apply Forall_fmap, Forall_true. done.
Qed.

Lemma merge_left_const_key {L R} (kl : L → string) (kr : R → string)
    (ls : list L) (rs : list R) (k : string) :
  Forall (λ l, kl l = k) ls →
  length (merge_left kl kr ls rs) = (length ls * fanout kr k rs)%nat
  ∧ Forall (λ p, kl (fst p) = k) (merge_left kl kr ls rs).
Proof.
  induction 1 as [|l ls Hl Hls [IHlen IHkey]]; [done|].
  change (l :: ls) with ([l] ++ ls)%list. rewrite merge_left_app.
  destruct (merge_left_one kl kr l rs) as [Hlen Hfst].
  rewrite length_app, Hlen, IHlen, Hl. split; [simpl; lia|].
  apply Forall_app. split; [|done].
  eapply Forall_impl; [exact Hfst|]. intros p ->. done.
Qed.

Lemma fmap_const_key {A} (f : A → string) (l : list A) (k : string) :
  Forall (λ x, f x = k) l → f <$> l = replicate (length l) k.
Proof.
  induction 1 as [|x l Hx Hl IH]; [done|]. by rewrite fmap_cons, Hx, IH.
Qed.

Lemma merge_all_cons (o : orders_row) (orders : list orders_row)
    (delivery : list delivery_row) (routes : list routes_row)
    (cost : list cost_row) (feedback : list feedback_row) :
  merge_all (o :: orders) delivery routes cost feedback
  = (merge_all [o] delivery routes cost feedback
     ++ merge_all orders delivery routes cost feedback)%list.
Proof.
  unfold merge_all. cbv zeta. change (o :: orders) with ([o] ++ orders)%list.
  by rewrite !merge_left_app.
Qed.

Lemma merge_all_one (o : orders_row) (delivery : list delivery_row)
    (routes : list routes_row) (cost : list cost_row)
    (feedback : list feedback_row) :
  length (merge_all [o] delivery routes cost feedback)
  = row_multiplicity delivery routes cost feedback o
  ∧ Forall (λ j : joined, o_order_id (fst (fst (fst (fst j)))) = o_order_id o)
      (merge_all [o] delivery routes cost feedback).
Proof.
  unfold merge_all, row_multiplicity. cbv zeta. set (k := o_order_id o).
  destruct (merge_left_const_key o_order_id d_order_id [o] delivery k)
    as [H1 K1]; [by repeat constructor|].
  destruct (merge_left_const_key (λ j, o_order_id (fst j)) r_order_id
              _ routes k K1) as [H2 K2].
  destruct (merge_left_const_key (λ j, o_order_id (fst (fst j))) c_order_id
              _ cost k K2) as [H3 K3].
  destruct (merge_left_const_key (λ j, o_order_id (fst (fst (fst j)))) f_order_id
              _ feedback k K3) as [H4 K4].
  split; [|exact K4]. etrans; [exact H4|]. rewrite H3, H2, H1. simpl. lia.
Qed.

(** X4.  Without any assumption on the keys, the [order_id] column of
    the unified table lists the order ids in the order of [orders],
    each as many times as the product, over the four right tables, of
    the number of rows of that id (1 when there is none); the number of
    rows of the unified table is the sum of these products. *)
Theorem join_multiplies_rows (orders : list orders_row)
    (delivery : list delivery_row) (routes : list routes_row)
    (cost : list cost_row) (feedback : list feedback_row) :
  let df := process_table orders delivery routes cost feedback in
  let copies := row_multiplicity delivery routes cost feedback in
  col order_id df = flat_map (λ o, replicate (copies o) (o_order_id o)) orders
  ∧ length df = sum_list (copies <$> orders)
  ∧ (length orders ≤ length df)%nat.
Proof.
  intros df copies.
  assert (Hcol : col order_id df
    = (λ j : joined, o_order_id (fst (fst (fst (fst j)))))
        <$> merge_all orders delivery routes cost feedback).
  { unfold df, col, process_table, fillna. rewrite <- !list_fmap_compose.
    apply list_fmap_ext. by intros _ [[[[o d] t] c] f] _. }
  assert (Hlen : length df
    = length (merge_all orders delivery routes cost feedback)).
  { unfold df, process_table, fillna. by rewrite !length_fmap. }
  rewrite Hcol, Hlen. clear Hcol Hlen df.
  induction orders as [|o orders (IH1 & IH2 & IH3)]; [done|].
  rewrite merge_all_cons.
  destruct (merge_all_one o delivery routes cost feedback) as [Hn Hk].
  rewrite fmap_app, length_app. cbn [flat_map fmap list_fmap sum_list].
  rewrite IH1, IH2, (fmap_const_key _ _ _ Hk), Hn.
  split; [done|]. split; [done|].
  assert (1 ≤ copies o)%nat by (unfold copies, row_multiplicity, fanout; nia).
  simpl. fold copies. lia.
Qed.

Lemma matches_elem_iff {R} (kr : R → string) (k : string) (rs : list R) (r : R) :
  r ∈ matches kr k rs ↔ r ∈ rs ∧ kr r = k.
Proof.
  unfold matches. rewrite !list_elem_of_In, filter_In, String.eqb_eq. done.
Qed.

Lemma merge_left_elem_iff {L R} (kl : L → string) (kr : R → string)
    (ls : list L) (rs : list R) (l : L) (x : option R) :
  (l, x) ∈ merge_left kl kr ls rs ↔ l ∈ ls ∧ attached kr (kl l) rs x.
Proof.
  induction ls as [|a ls IH].
  - split; [intros H; by apply elem_of_nil in H|].
    intros [H _]. by apply elem_of_nil in H.
  - change (a :: ls) with ([a] ++ ls)%list.
    rewrite merge_left_app, !elem_of_app, IH, list_elem_of_singleton.
    assert (Ha : (l, x) ∈ merge_left kl kr [a] rs
                 ↔ l = a ∧ attached kr (kl l) rs x).
    { unfold merge_left. cbn [flat_map]. rewrite app_nil_r.
      destruct (matches kr (kl a) rs) as [|m ms] eqn:E.
      - rewrite list_elem_of_singleton. split.
        + intros [= -> ->]. split; [done|]. simpl. intros r Hr Hk.
          assert (Hin : r ∈ matches kr (kl a) rs) by (by apply matches_elem_iff).
          rewrite E in Hin. by apply elem_of_nil in Hin.
        + intros [-> Hx]. destruct x as [r|]; [|done].
          destruct Hx as [Hr Hk].
          assert (Hin : r ∈ matches kr (kl a) rs) by (by apply matches_elem_iff).
          rewrite E in Hin. by apply elem_of_nil in Hin.
      - rewrite <- E. rewrite list_elem_of_fmap. split.
        + intros (r & [= -> ->] & Hr). split; [done|].
          by apply matches_elem_iff.
        + intros [-> Hx]. destruct x as [r|].
          * exists r. split; [done|]. by apply matches_elem_iff.
          * simpl in Hx. assert (Hm : m ∈ matches kr (kl a) rs)
              by (rewrite E; left).
            apply matches_elem_iff in Hm as [Hm Hk]. by destruct (Hx m Hm). }
    rewrite Ha. tauto.
Qed.

(** X5.  Without any assumption on the keys, the rows of the unified
    table are exactly the rows built from an order and, for each of the
    four right tables, either a row of that table with the order's id
    or nothing when the table has no such row, with [fillna(0)]
    applied: no order is dropped, no row pairs an order with a row of
    another id, and every combination of matching rows occurs. *)
Theorem unified_rows_are_the_matching_combinations
    (orders : list orders_row) (delivery : list delivery_row)
    (routes : list routes_row) (cost : list cost_row)
    (feedback : list feedback_row) (r : row) :
  r ∈ process_table orders delivery routes cost feedback
  ↔ ∃ o d t c f,
      o ∈ orders
      ∧ attached d_order_id (o_order_id o) delivery d
      ∧ attached r_order_id (o_order_id o) routes t
      ∧ attached c_order_id (o_order_id o) cost c
      ∧ attached f_order_id (o_order_id o) feedback f
      ∧ r = fillna_row (raw_row (o, d, t, c, f)).
Proof.
  unfold process_table, fillna, merge_all. cbv zeta.
  rewrite <- list_fmap_compose, list_elem_of_fmap. split.
  - intros ([[[[o d] t] c] f] & -> & Hin).
    apply merge_left_elem_iff in Hin as [Hin Hf].
    apply merge_left_elem_iff in Hin as [Hin Hc].
    apply merge_left_elem_iff in Hin as [Hin Ht].
    apply merge_left_elem_iff in Hin as [Hin Hd].
    exists o, d, t, c, f. simpl in *. done.
  - intros (o & d & t & c & f & Ho & Hd & Ht & Hc & Hf & ->).
    exists (o, d, t, c, f). split; [done|].
    repeat (apply merge_left_elem_iff; split; [|done]). done.
Qed.

(** ** Leakage and deviation *)

Lemma pos_scale (k : Q) (x : num) :
  (0 < k)%Q → num_pos x → num_pos (lit k * x)%num.
Proof.
  intros Hk. destruct x as [q| | |]; simpl; try tauto.
  - intros Hq. nra.
  - intros _. by rewrite inf_times_pos.
Qed.

Lemma gt_sub_pos (x m : num) : num_gtb x m = true → num_pos (x - m)%num.
Proof.
  unfold num_gtb. destruct x as [a| | |], m as [b| | |]; simpl; try done.
  intros H. apply negb_true_iff in H.
  destruct (Qle_bool_iff a b) as [_ Hle].
  assert (¬ (a <= b)%Q) by (intros Hab; rewrite (Hle Hab) in H; done).
  lra.
Qed.

Lemma pos_add_nonneg (a b : num) :
  num_nonneg a → num_pos b → num_pos (a + b)%num.
Proof. destruct a, b; simpl; try tauto. intros; lra. Qed.

Lemma pos_nonneg (a : num) : num_pos a → num_nonneg a.
Proof. destruct a; simpl; try tauto. intros; lra. Qed.

(** X6.  A row that is not a deviation has a leakage of exactly 0. *)
Theorem no_deviation_no_leakage (df : list row) (i : nat) :
  deviation df !! i = Some false →
  value_leakage df !! i = Some (lit 0).
Proof.
  intros Hdev. destruct (df !! i) as [r|] eqn:Hr.
  - rewrite (deviation_lookup _ _ _ Hr) in Hdev.
    rewrite (value_leakage_lookup _ _ _ Hr).
    injection Hdev as Hdev.
    apply orb_false_iff in Hdev as [Hdev Hco].
    apply orb_false_iff in Hdev as [Hdl Hdm].
    by rewrite Hco, Hdm, Hdl.
  - unfold deviation, series_or in Hdev.
    apply lookup_zip_with_Some in Hdev as (b & co & _ & _ & Hco).
    unfold cost_overrun, gt_scalar, col in Hco.
    rewrite !list_lookup_fmap, Hr in Hco. done.
Qed.

Lemma no_deviation_no_leakage_witness :
  deviation two_df !! 0%nat = Some false
  ∧ value_leakage two_df !! 0%nat = Some (lit 0).
Proof.
  assert (H : deviation two_df !! 0%nat = Some false) by reflexivity.
  split; [exact H|]. exact (no_deviation_no_leakage two_df 0 H).
Defined.

(** X7.  A deviating row whose order value is positive has a positive
    leakage: each of the three amounts is positive when it is added. *)
Theorem deviation_leaks (df : list row) (i : nat) (r : row) :
  df !! i = Some r →
  num_pos (order_value r) →
  deviation df !! i = Some true →
  ∃ v : num, value_leakage df !! i = Some v ∧ num_pos v.
Proof.
  intros Hr Hov Hdev.
  rewrite (deviation_lookup _ _ _ Hr) in Hdev. injection Hdev as Hdev.
  eexists. split; [by apply value_leakage_lookup|].
  assert (H0 : num_nonneg (lit 0)) by (simpl; lra).
  assert (H1 : num_pos (lit (1 # 10) * order_value r)%num)
    by (apply pos_scale; [reflexivity | done]).
  assert (H2 : num_pos (lit (2 # 10) * order_value r)%num)
    by (apply pos_scale; [reflexivity | done]).
  pose proof (gt_sub_pos (delivery_cost r) (series_median (col delivery_cost df)))
    as H3.
  unfold row_cost_overrun in *. unfold leak_step.
  destruct (num_gtb (delivery_cost r) _), (row_damage r), (row_delay r);
    try done; auto 8 using pos_add_nonneg, pos_nonneg.
Qed.

Lemma deviation_leaks_witness :
  two_df !! 1%nat = Some second_row
  ∧ num_pos (order_value second_row)
  ∧ deviation two_df !! 1%nat = Some true
  ∧ ∃ v : num, value_leakage two_df !! 1%nat = Some v ∧ num_pos v.
Proof.
  assert (Hov : num_pos (order_value second_row)) by (simpl; lra).
  assert (Hdev : deviation two_df !! 1%nat = Some true) by reflexivity.
  split; [reflexivity|]. split; [exact Hov|]. split; [exact Hdev|].
  exact (deviation_leaks two_df 1 second_row eq_refl Hov Hdev).
Defined.

(** ** Risk scores of well-formed tables *)

Lemma fin_nonneg_not_nan (x : num) : fin_nonneg x → is_nan x = false.
Proof. by destruct x. Qed.

Lemma dropna_fin_nonneg (s : list num) : Forall fin_nonneg s → dropna s = s.
Proof.
  intros H. apply dropna_id. intros v Hv.
  apply fin_nonneg_not_nan. by eapply Forall_forall in H.
Qed.

Lemma foldl_add_fin_nonneg (s : list num) (acc : num) :
  Forall fin_nonneg s → fin_nonneg acc → fin_nonneg (foldl num_add acc s).
Proof.
  intros H. revert acc. induction H as [|x s Hx Hs IH]; intros acc Ha; [done|].
  simpl. apply IH. destruct acc, x; simpl in *; try done. lra.
Qed.

Lemma foldl_max_fin_nonneg (s : list num) (acc : num) :
  Forall fin_nonneg s → fin_nonneg acc → fin_nonneg (foldl num_max acc s).
Proof.
  intros H. revert acc. induction H as [|x s Hx Hs IH]; intros acc Ha; [done|].
  simpl. apply IH. unfold num_max. by destruct (num_ltb acc x).
Qed.

Lemma series_mean_fin_nonneg (s : list num) :
  s ≠ [] → Forall fin_nonneg s → fin_nonneg (series_mean s).
Proof.
  intros Hne H. unfold series_mean, series_sum, count.
  rewrite (dropna_fin_nonneg s H).
  pose proof (foldl_add_fin_nonneg s (lit 0) H) as Hsum.
  destruct (foldl num_add (lit 0) s) as [t| | |];
    try (exfalso; apply Hsum; simpl; lra).
  assert (Ht : (0 <= t)%Q) by (apply Hsum; simpl; lra).
  destruct s as [|x s]; [done|].
  assert (Hn : (0 < inject_Z (Z.of_nat (length (x :: s))))%Q).
  { change 0%Q with (inject_Z 0). rewrite <- Zlt_Qlt. simpl. lia. }
  set (n := inject_Z (Z.of_nat (length (x :: s)))) in *.
  assert (E : qzero n = false) by (apply qzero_false; lra).
  unfold lit, num_div. rewrite E. simpl. apply Qle_shift_div_l; [done | lra].
Qed.

Lemma series_max_fin_nonneg (s : list num) :
  s ≠ [] → Forall fin_nonneg s → fin_nonneg (series_max s).
Proof.
  intros Hne H. unfold series_max. rewrite (dropna_fin_nonneg s H).
  destruct H as [|x s Hx Hs]; [done|]. by apply foldl_max_fin_nonneg.
Qed.

(** A quotient whose divisor is a non-negative number plus one. *)
Lemma ratio_fin_nonneg (k : Q) (a b : num) :
  (0 <= k)%Q → fin_nonneg a → fin_nonneg b →
  fin_nonneg (lit k * (a / (b + lit 1)))%num.
Proof.
  intros Hk. destruct a as [a| | |], b as [b| | |]; simpl; try done.
  intros Ha Hb.
  assert (E : qzero (b + 1) = false) by (apply qzero_false; lra).
  rewrite E. simpl. apply Qmult_le_0_compat; [done|].
  apply Qle_shift_div_l; lra.
Qed.

Lemma fin_nonneg_add (a b : num) :
  fin_nonneg a → fin_nonneg b → fin_nonneg (a + b)%num.
Proof. destruct a, b; simpl; try done. intros; lra. Qed.

(** X8.  In a table whose day counts, delivery costs and traffic
    delays are finite and not negative, every risk score is a finite,
    non-negative number: with such data none of the three divisors
    [promised + 1], [mean + 1], [max + 1] is zero. *)
Theorem risk_score_finite_nonneg (df : list row) (i : nat) (r : row) :
  df !! i = Some r →
  (∀ x, x ∈ df →
     fin_nonneg (promised_delivery_days x) ∧ fin_nonneg (actual_delivery_days x)
     ∧ fin_nonneg (delivery_cost x) ∧ fin_nonneg (traffic_delay x)) →
  ∃ q : Q, risk_score df !! i = Some (Fin q) ∧ (0 <= q)%Q.
Proof.
  intros Hr Hdf.
  assert (Hne : ∀ A (f : row → A), col f df ≠ []).
  { intros A f Hnil. apply (col_lookup f) in Hr. by rewrite Hnil in Hr. }
  assert (Hcost : Forall fin_nonneg (col delivery_cost df)).
  { apply Forall_fmap, Forall_forall. intros x Hx. apply (Hdf x Hx). }
  assert (Htd : Forall fin_nonneg (col traffic_delay df)).
  { apply Forall_fmap, Forall_forall. intros x Hx. apply (Hdf x Hx). }
  destruct (Hdf r) as (Hp & Ha & Hc & Ht); [apply list_elem_of_lookup; eauto|].
  pose proof (series_mean_fin_nonneg _ (Hne _ _) Hcost) as Hmean.
  pose proof (series_max_fin_nonneg _ (Hne _ _) Htd) as Hmax.
  rewrite (risk_score_lookup _ _ _ Hr). unfold row_risk_score.
  assert (H : fin_nonneg
    (lit (4 # 10) * (actual_delivery_days r / (promised_delivery_days r + lit 1))
     + lit (3 # 10) * (delivery_cost r / (series_mean (col delivery_cost df) + lit 1))
     + lit (3 # 10) * (traffic_delay r / (series_max (col traffic_delay df) + lit 1)))%num).
  { repeat apply fin_nonneg_add; apply ratio_fin_nonneg; done. }
  destruct (_ + _)%num as [q| | |]; try done. by exists q.
Qed.

Lemma risk_score_finite_nonneg_witness :
  one_df !! 0%nat = Some one_row
  ∧ ∃ q : Q, risk_score one_df !! 0%nat = Some (Fin q) ∧ (0 <= q)%Q.
Proof.
  split; [reflexivity|].
  apply (risk_score_finite_nonneg one_df 0 one_row eq_refl).
  intros x Hx. vm_compute in Hx. apply list_elem_of_singleton in Hx. subst x.
  simpl. repeat split; lra.
Defined.

(** ** Counting and sorting *)

Lemma count_if_fmap {A B} (p : B → bool) (f : A → B) (l : list A) :
  count_if p (f <$> l) = count_if (λ x, p (f x)) l.
Proof. induction l as [|x l IH]; [done|]. rewrite fmap_cons. simpl. by rewrite IH. Qed.

Lemma count_if_app {A} (p : A → bool) (l1 l2 : list A) :
  count_if p (l1 ++ l2) = (count_if p l1 + count_if p l2)%nat.
Proof. induction l1 as [|x l1 IH]; simpl; [done|]. rewrite IH. lia. Qed.

Lemma count_if_perm {A} (p : A → bool) (l1 l2 : list A) :
  l1 ≡ₚ l2 → count_if p l1 = count_if p l2.
Proof. induction 1; simpl; lia. Qed.

Lemma count_if_le_length {A} (p : A → bool) (l : list A) :
  (count_if p l ≤ length l)%nat.
Proof. induction l as [|x l IH]; simpl; [lia|]. destruct (p x); lia. Qed.

Lemma count_if_none {A} (p : A → bool) (l : list A) :
  Forall (λ x, p x = false) l → count_if p l = 0%nat.
Proof. induction 1 as [|x l Hx Hl IH]; simpl; [done|]. by rewrite Hx, IH. Qed.

Lemma count_if_dropna (p : num → bool) (s : list num) :
  p NaN = false → count_if p (dropna s) = count_if p s.
Proof.
  intros Hp. unfold dropna. induction s as [|x s IH]; simpl; [done|].
  destruct x; simpl; rewrite ?Hp, IH; done.
Qed.

Lemma dropna_not_nan (s : list num) : Forall (λ x, is_nan x = false) (dropna s).
Proof.
  unfold dropna. apply Forall_forall. intros x Hx.
  apply list_elem_of_In, filter_In in Hx as [_ Hx]. by apply negb_true_iff.
Qed.

Lemma dropna_length (s : list num) : (length (dropna s) ≤ length s)%nat.
Proof.
  unfold dropna. induction s as [|x s IH]; simpl; [lia|].
  destruct (negb (is_nan x)); simpl; lia.
Qed.

Lemma insert_sorted_perm (x : num) (s : list num) : insert_sorted x s ≡ₚ x :: s.
Proof.
  induction s as [|y s IH]; simpl; [done|].
  destruct (num_leb x y); [done|]. rewrite IH. apply Permutation_swap.
Qed.

Lemma sort_values_perm (s : list num) : sort_values s ≡ₚ s.
Proof.
  unfold sort_values. induction s as [|x s IH]; simpl; [done|].
  by rewrite insert_sorted_perm, IH.
Qed.

Lemma num_leb_trans (x y z : num) :
  num_leb x y = true → num_leb y z = true → num_leb x z = true.
Proof.
  destruct x as [a| | |], y as [b| | |], z as [c| | |]; simpl; try done.
  rewrite !Qle_bool_iff. intros; lra.
Qed.

Lemma num_leb_total (x y : num) :
  is_nan x = false → is_nan y = false →
  num_leb x y = false → num_leb y x = true.
Proof.
  destruct x as [a| | |], y as [b| | |]; simpl; try done.
  intros _ _ H. apply Qle_bool_iff.
  destruct (Qlt_le_dec b a) as [Hlt|Hle]; [lra|].
  apply Qle_bool_iff in Hle. congruence.
Qed.

Lemma insert_sorted_sorted (x : num) (s : list num) :
  is_nan x = false → Forall (λ y, is_nan y = false) s →
  StronglySorted num_le s → StronglySorted num_le (insert_sorted x s).
Proof.
  intros Hx Hs Hsorted. induction Hsorted as [|y s Hsorted IH Hy]; simpl.
  - by repeat constructor.
  - apply Forall_cons in Hs as [Hyn Hs].
    destruct (num_leb x y) eqn:E.
    + constructor; [by constructor|]. constructor; [exact E|].
      eapply Forall_impl; [exact Hy|]. intros z Hz.
      by apply (num_leb_trans x y z).
    + constructor; [by apply IH|].
      rewrite insert_sorted_perm. constructor; [|done].
      by apply num_leb_total.
Qed.

Lemma sort_values_sorted (s : list num) :
  Forall (λ y, is_nan y = false) s → StronglySorted num_le (sort_values s).
Proof.
  unfold sort_values. induction 1 as [|x s Hx Hs IH]; simpl; [constructor|].
  apply insert_sorted_sorted; [done| |done].
  by rewrite sort_values_perm.
Qed.

Lemma le_then_not_gt (x a m : num) :
  num_leb x a = true → num_ltb m a = false → num_ltb m x = false.
Proof.
  destruct x as [x| | |], a as [a| | |], m as [m| | |]; simpl; try done.
  rewrite !negb_false_iff, !Qle_bool_iff. intros; lra.
Qed.

Lemma num_ltb_irrefl (a : num) : num_ltb a a = false.
Proof.
  destruct a as [a| | |]; simpl; try done.
  apply negb_false_iff, Qle_bool_iff. lra.
Qed.

Lemma midpoint_not_below (a b : num) :
  num_leb a b = true → num_ltb ((a + b) / lit 2)%num a = false.
Proof.
  destruct a as [a| | |], b as [b| | |]; simpl; try done.
  rewrite Qle_bool_iff. intros Hab.
  change (qzero 2) with false. simpl.
  apply negb_false_iff, Qle_bool_iff. apply Qle_shift_div_l; lra.
Qed.

(** In a sorted column, the values above a threshold that is not below
    the entry of index [k] all lie after that entry. *)
Lemma count_above_sorted (w : list num) (k : nat) (a m : num) :
  StronglySorted num_le w → w !! k = Some a → num_ltb m a = false →
  (count_if (λ x, num_gtb x m) w + S k ≤ length w)%nat.
Proof.
  intros Hs Hk Hm.
  pose proof (lookup_lt_Some _ _ _ Hk) as Hlt.
  rewrite <- (take_drop_middle w k a Hk) in Hs |- *.
  rewrite count_if_app, length_app. simpl.
  rewrite length_take_le by lia.
  assert (H0 : count_if (λ x, num_gtb x m) (take k w) = 0%nat).
  { apply count_if_none, Forall_forall. intros x Hx.
    unfold num_gtb. apply (le_then_not_gt x a m); [|done].
    eapply (StronglySorted_app_1_elem_of num_le); [exact Hs|exact Hx|left]. }
  unfold num_gtb at 2. rewrite H0, Hm.
  pose proof (count_if_le_length (λ x, num_gtb x m) (drop (S k) w)). lia.
Qed.

(** X9.  At most half of the rows of a table are cost overruns:
    twice the number of rows whose [delivery_cost] is above the median
    never exceeds the number of rows. *)
Theorem cost_overrun_at_most_half (df : list row) :
  (2 * count_true (cost_overrun df) ≤ length df)%nat.
Proof.
  unfold count_true, cost_overrun, gt_scalar. rewrite count_if_fmap.
  set (s := col delivery_cost df).
  assert (Hlen : length df = length s) by (unfold s, col; by rewrite length_fmap).
  rewrite Hlen. clear Hlen.
  set (m := series_median s). set (w := sort_values (dropna s)).
  assert (Hcount : count_if (λ x, num_gtb x m) s = count_if (λ x, num_gtb x m) w).
  { unfold w. rewrite (count_if_perm _ _ _ (sort_values_perm (dropna s))).
    symmetry. apply count_if_dropna. unfold num_gtb. by destruct m. }
  assert (Hw : StronglySorted num_le w)
    by (apply sort_values_sorted, dropna_not_nan).
  assert (Hn : (length w ≤ length s)%nat).
  { unfold w. rewrite (Permutation_length (sort_values_perm _)).
    apply dropna_length. }
  rewrite Hcount.
  assert (Hgoal : (2 * count_if (λ x, num_gtb x m) w ≤ length w)%nat); [|lia].
  unfold m, series_median. fold w. cbv zeta.
  destruct (length w) as [|n'] eqn:En.
  { apply nil_length_inv in En. by rewrite En. }
  rewrite <- En. set (n := length w) in *.
  pose proof (Nat.div_mod_eq n 2) as Hdiv.
  pose proof (Nat.mod_upper_bound n 2) as Hmod.
  destruct (Nat.odd n) eqn:Eodd.
  - rewrite nth_lookup.
    destruct (w !! (n / 2)%nat) as [a|] eqn:Ea;
      [|apply lookup_ge_None in Ea; fold n in Ea; lia].
    simpl. pose proof (count_above_sorted w (n / 2) a a Hw Ea (num_ltb_irrefl a)).
    fold n in H. rewrite <- Nat.bit0_mod, Nat.bit0_odd, Eodd in Hdiv.
    cbn [Nat.b2n] in Hdiv. lia.
  - rewrite <- Nat.bit0_mod, Nat.bit0_odd, Eodd in Hdiv. cbn [Nat.b2n] in Hdiv.
    rewrite !nth_lookup.
    destruct (w !! (n / 2 - 1)%nat) as [a|] eqn:Ea;
      [|apply lookup_ge_None in Ea; fold n in Ea; lia].
    destruct (w !! (n / 2)%nat) as [b|] eqn:Eb;
      [|apply lookup_ge_None in Eb; fold n in Eb; lia].
    simpl.
    assert (Hab : num_leb a b = true).
    { rewrite <- (take_drop_middle w (n / 2) b Eb) in Hw.
      eapply (StronglySorted_app_1_elem_of num_le); [exact Hw| |left].
      apply list_elem_of_lookup. exists (n / 2 - 1)%nat.
      rewrite lookup_take_lt by lia. exact Ea. }
    pose proof (count_above_sorted w (n / 2 - 1) a _ Hw Ea
                  (midpoint_not_below a b Hab)).
    fold n in H. lia.
Qed.

(** ** Sums of numbers *)

Lemma num_eq_refl (x : num) : num_eq x x.
Proof. destruct x; simpl; auto. reflexivity. Qed.

Lemma num_eq_sym (x y : num) : num_eq x y → num_eq y x.
Proof. destruct x, y; simpl; auto. intros H. by symmetry. Qed.

Lemma num_eq_trans (x y z : num) : num_eq x y → num_eq y z → num_eq x z.
Proof. destruct x, y, z; simpl; try tauto. intros H1 H2. by rewrite H1. Qed.

#[local] Instance num_eq_equivalence : Equivalence num_eq.
Proof.
  split; [exact num_eq_refl | exact num_eq_sym | exact num_eq_trans].
Qed.

#[local] Instance num_add_proper : Proper (num_eq ==> num_eq ==> num_eq) num_add.
Proof. intros a a' Ha b b' Hb. by apply num_eq_add. Qed.

Lemma num_add_comm (a b : num) : num_eq (a + b)%num (b + a)%num.
Proof. destruct a, b; simpl; trivial. ring. Qed.

Lemma num_add_assoc (a b c : num) : num_eq (a + (b + c))%num (a + b + c)%num.
Proof. destruct a, b, c; simpl; trivial. ring. Qed.

Lemma num_add_0_l (a : num) : num_eq (lit 0 + a)%num a.
Proof. destruct a; simpl; trivial. ring. Qed.

Lemma num_add_0_r (a : num) : num_eq (a + lit 0)%num a.
Proof. destruct a; simpl; trivial. ring. Qed.

Lemma total_cons (x : num) (l : list num) : total (x :: l) = (x + total l)%num.
Proof. reflexivity. Qed.

Lemma foldl_add_total (l : list num) (a : num) :
  num_eq (foldl num_add a l) (a + total l)%num.
Proof.
  revert a. induction l as [|x l IH]; intros a; cbn [foldl].
  - change (total []) with (lit 0). by rewrite num_add_0_r.
  - by rewrite IH, total_cons, num_add_assoc.
Qed.

Lemma series_sum_total (s : list num) : num_eq (series_sum s) (total (dropna s)).
Proof. unfold series_sum. by rewrite foldl_add_total, num_add_0_l. Qed.

Lemma total_app (l1 l2 : list num) :
  num_eq (total (l1 ++ l2)) (total l1 + total l2)%num.
Proof.
  induction l1 as [|x l1 IH].
  - change (total []) with (lit 0). by rewrite app_nil_l, num_add_0_l.
  - by rewrite <- app_comm_cons, !total_cons, IH, num_add_assoc.
Qed.

Lemma total_perm (l1 l2 : list num) : l1 ≡ₚ l2 → num_eq (total l1) (total l2).
Proof.
  induction 1 as [|x l1 l2 H IH|x y l|l1 l2 l3 H1 IH1 H2 IH2].
  - reflexivity.
  - by rewrite !total_cons, IH.
  - rewrite !total_cons, !num_add_assoc. by rewrite (num_add_comm y x).
  - by rewrite IH1.
Qed.

Lemma total_filter_split {K} (p : K * num → bool) (kv : list (K * num)) :
  num_eq (total (snd <$> kv))
    (total (snd <$> List.filter p kv)
     + total (snd <$> List.filter (λ x, negb (p x)) kv))%num.
Proof.
  induction kv as [|x kv IH].
  - vm_compute. reflexivity.
  - rewrite fmap_cons, total_cons, IH. cbn [List.filter].
    destruct (p x); cbn [negb]; rewrite fmap_cons, total_cons.
    + by rewrite num_add_assoc.
    + rewrite !num_add_assoc.
      by rewrite (num_add_comm (snd x) (total (snd <$> List.filter p kv))).
Qed.

Lemma total_fmap_ext {A} (f g : A → num) (l : list A) :
  (∀ x, num_eq (f x) (g x)) → num_eq (total (f <$> l)) (total (g <$> l)).
Proof.
  intros H. induction l as [|x l IH]; [reflexivity|].
  by rewrite !fmap_cons, !total_cons, IH, (H x).
Qed.

Lemma filter_filter_implied {A} (p q : A → bool) (l : list A) :
  (∀ x, x ∈ l → p x = true → q x = true) →
  List.filter p (List.filter q l) = List.filter p l.
Proof.
  induction l as [|x l IH]; intros H; [done|]. cbn [List.filter].
  assert (IH' : List.filter p (List.filter q l) = List.filter p l).
  { apply IH. intros y Hy. apply H. by right. }
  destruct (q x) eqn:Eq; cbn [List.filter].
  - by rewrite IH'.
  - destruct (p x) eqn:Ep; [|done].
    rewrite (H x) in Eq; [done | left | done].
Qed.

Lemma dropna_snd_filter {K} (p : K * num → bool) (kv : list (K * num)) :
  dropna (snd <$> List.filter p kv)
  = snd <$> List.filter p (List.filter (λ x, negb (is_nan (snd x))) kv).
Proof.
  unfold dropna. induction kv as [|x kv IH]; [done|]. cbn [List.filter].
  destruct (p x) eqn:Ep, (negb (is_nan (snd x))) eqn:En;
    cbn [List.filter]; rewrite ?Ep, ?fmap_cons; cbn [List.filter];
    rewrite ?En, ?fmap_cons, IH; done.
Qed.

Section groupby_facts.
Context {K : Type} (eqb leb : K → K → bool) (isna : K → bool).
Hypothesis eqb_refl : ∀ k, isna k = false → eqb k k = true.
Hypothesis eqb_sym : ∀ a b, eqb a b = eqb b a.
Hypothesis eqb_trans : ∀ a b c, eqb a b = true → eqb b c = true → eqb a c = true.

Lemma insert_by_perm (x : K) (l : list K) : insert_by leb x l ≡ₚ x :: l.
Proof.
  induction l as [|y l IH]; simpl; [done|].
  destruct (leb x y); [done|]. rewrite IH. apply Permutation_swap.
Qed.

Lemma sort_by_perm (l : list K) : sort_by leb l ≡ₚ l.
Proof.
  unfold sort_by. induction l as [|x l IH]; simpl; [done|].
  by rewrite insert_by_perm, IH.
Qed.

Lemma unique_elem (l : list K) (k : K) : k ∈ unique eqb l → k ∈ l.
Proof.
  revert k. induction l as [|x l IH]; intros k; simpl; [done|].
  rewrite !elem_of_cons. intros [->|H]; [by left|]. right. apply IH.
  by apply list_elem_of_In, filter_In in H as [H%list_elem_of_In _].
Qed.

Lemma unique_covers (l : list K) (x : K) :
  x ∈ l → isna x = false → ∃ k, k ∈ unique eqb l ∧ eqb x k = true.
Proof.
  intros Hx Hna. induction l as [|y l IH]; [by apply elem_of_nil in Hx|].
  simpl. apply elem_of_cons in Hx as [->|Hx].
  - exists y. split; [left | by apply eqb_refl].
  - destruct (IH Hx) as (k & Hk & Hxk).
    destruct (eqb k y) eqn:E.
    + exists y. split; [left | by apply (eqb_trans x k y)].
    + exists k. split; [|done]. right.
      apply list_elem_of_In, filter_In. split; [by apply list_elem_of_In|].
      by rewrite E.
Qed.

Lemma distinct_keys_filter (p : K → bool) (l : list K) :
  distinct_keys eqb l → distinct_keys eqb (List.filter p l).
Proof.
  induction l as [|x l IH]; simpl; [done|]. intros [Hx Hl].
  destruct (p x); simpl; [|by apply IH]. split; [|by apply IH].
  apply Forall_forall. intros k Hk.
  apply list_elem_of_In, filter_In in Hk as [Hk%list_elem_of_In _].
  by eapply Forall_forall in Hx.
Qed.

Lemma unique_distinct (l : list K) : distinct_keys eqb (unique eqb l).
Proof.
  induction l as [|x l IH]; simpl; [done|]. split.
  - apply Forall_forall. intros k Hk.
    apply list_elem_of_In, filter_In in Hk as [_ Hk].
    by apply negb_true_iff.
  - by apply distinct_keys_filter.
Qed.

(** The sums of the groups add up to the sum of all values. *)
Lemma grouped_total (ks : list K) (kv : list (K * num)) :
  distinct_keys eqb ks →
  (∀ p, p ∈ kv → ∃ k, k ∈ ks ∧ eqb (fst p) k = true) →
  num_eq
    (total ((λ k, total (snd <$> List.filter (λ p, eqb (fst p) k) kv)) <$> ks))
    (total (snd <$> kv)).
Proof.
  revert kv. induction ks as [|k ks IH]; intros kv Hd Hcov.
  - destruct kv as [|p kv]; [reflexivity|].
    destruct (Hcov p) as (k & Hk & _); [left|]. by apply elem_of_nil in Hk.
  - destruct Hd as [Hk Hd].
    rewrite fmap_cons, total_cons.
    rewrite (total_filter_split (λ p, eqb (fst p) k) kv).
    apply num_eq_add; [reflexivity|].
    set (kv' := List.filter (λ x, negb (eqb (fst x) k)) kv).
    rewrite <- (IH kv' Hd).
    + assert (Heq :
        (λ k0, total (snd <$> List.filter (λ p, eqb (fst p) k0) kv)) <$> ks
        = (λ k0, total (snd <$> List.filter (λ p, eqb (fst p) k0) kv')) <$> ks);
        [|by rewrite Heq].
      apply list_fmap_ext. intros i k' Hk'.
      apply list_elem_of_lookup_2 in Hk'. f_equal. f_equal. unfold kv'.
      symmetry. apply filter_filter_implied. intros x _ Hx.
      apply negb_true_iff. destruct (eqb (fst x) k) eqn:E; [|done].
      assert (Hkk : eqb k' k = true).
      { apply (eqb_trans k' (fst x) k); [|done]. by rewrite eqb_sym. }
      eapply Forall_forall in Hk; [|exact Hk']. congruence.
    + intros p Hp. unfold kv' in Hp.
      apply list_elem_of_In, filter_In in Hp as [Hp%list_elem_of_In Hne].
      destruct (Hcov p Hp) as (k0 & Hk0 & Hpk0).
      apply elem_of_cons in Hk0 as [->|Hk0]; [|eauto].
      rewrite Hpk0 in Hne. done.
Qed.
End groupby_facts.

(** ** Keys *)

Lemma num_eqb_eq (x y : num) :
  num_eqb x y = true ↔ is_nan x = false ∧ num_eq x y.
Proof.
  destruct x, y; simpl; rewrite ?Qeq_bool_iff;
    (split; [try done; tauto | intros [? ?]; done]).
Qed.

Lemma cell_eqb_refl (c : cell) : cell_missing c = false → cell_eqb c c = true.
Proof.
  destruct c as [x|s]; simpl; [|by rewrite String.eqb_refl].
  intros Hx. apply num_eqb_eq. split; [done | reflexivity].
Qed.

Lemma cell_eqb_sym (a b : cell) : cell_eqb a b = cell_eqb b a.
Proof.
  destruct a as [x|s], b as [y|t]; simpl; try done; [|apply String.eqb_sym].
  apply eq_true_iff_eq. rewrite !num_eqb_eq. split.
  - intros [Hx Hxy]. split; [by destruct x, y | by symmetry].
  - intros [Hy Hxy]. split; [by destruct x, y | by symmetry].
Qed.

Lemma cell_eqb_trans (a b c : cell) :
  cell_eqb a b = true → cell_eqb b c = true → cell_eqb a c = true.
Proof.
  destruct a as [x|s], b as [y|t], c as [z|u]; simpl; try done.
  - rewrite !num_eqb_eq. intros [Hx Hxy] [Hy Hyz]. split; [done|].
    by rewrite Hxy.
  - rewrite !String.eqb_eq. congruence.
Qed.

(** ** Lengths of the derived columns *)

Lemma loc_add_length (mask : list bool) (column rhs : list num) (n : nat) :
  length mask = n → length column = n → length rhs = n →
  length (loc_add mask column rhs) = n.
Proof.
  revert column rhs n.
  induction mask as [|m mask IH]; intros [|v column] [|x rhs] [|n];
    simpl; try done.
  intros [= Hm] [= Hc] [= Hr]. f_equal. by apply IH.
Qed.

Lemma deviation_length (df : list row) : length (deviation df) = length df.
Proof.
  unfold deviation, series_or, delay, damage, cost_overrun, series_gt,
    gt_scalar, col.
  rewrite !length_zip_with, !length_fmap. lia.
Qed.

Lemma value_leakage_length (df : list row) :
  length (value_leakage df) = length df.
Proof.
  unfold value_leakage.
  assert (Hdl : length (delay df) = length df).
  { unfold delay, series_gt, col. rewrite length_zip_with, !length_fmap. lia. }
  assert (Hdm : length (damage df) = length df).
  { unfold damage, col. by rewrite !length_fmap. }
  assert (Hco : length (cost_overrun df) = length df).
  { unfold cost_overrun, gt_scalar, col. by rewrite !length_fmap. }
  repeat apply loc_add_length; try done;
    unfold scalar_mul, sub_scalar, col; by rewrite !length_fmap.
Qed.

Lemma process_table_no_missing (orders : list orders_row)
    (delivery : list delivery_row) (routes : list routes_row)
    (cost : list cost_row) (feedback : list feedback_row) (r : row) :
  r ∈ process_table orders delivery routes cost feedback → no_missing r.
Proof.
  unfold process_table, fillna. intros Hin.
  apply list_elem_of_fmap in Hin as (r' & -> & _).
  apply fillna_row_no_missing.
Qed.

(** ** The dashboard *)

(** The group sums of a column of keys without missing cell add up to
    the sum of the whole [value_leakage] column. *)
Lemma leakage_groups_add_up (key : row → cell) (df : list row) :
  (∀ r, r ∈ df → cell_missing (key r) = false) →
  num_eq
    (total (snd <$> groupby_agg cell_eqb cell_leb cell_missing series_sum
                      (col key df) (value_leakage df)))
    (series_sum (value_leakage df)).
Proof.
  intros Hkey. unfold groupby_agg, group_keys, group_values.
  rewrite <- list_fmap_compose.
  set (keys := col key df). set (vals := value_leakage df).
  set (kv := List.filter (λ x : cell * num, negb (is_nan (snd x))) (zip keys vals)).
  set (ks := unique cell_eqb (List.filter (λ k, negb (cell_missing k)) keys)).
  rewrite (total_perm _ _ (fmap_Permutation _ _ _ (sort_by_perm cell_leb ks))).
  rewrite (total_fmap_ext _
    (λ k, total (snd <$> List.filter (λ p, cell_eqb (fst p) k) kv))).
  2:{ intros k. cbv beta. unfold compose. simpl.
      rewrite series_sum_total. by rewrite dropna_snd_filter. }
  rewrite (grouped_total cell_eqb cell_eqb_sym cell_eqb_trans ks kv).
  - rewrite series_sum_total.
    assert (Hkv : snd <$> kv = dropna vals); [|by rewrite Hkv].
    pose proof (dropna_snd_filter (λ _ : cell * num, true) (zip keys vals)) as H.
    assert (Hid : ∀ A (l : list A), List.filter (λ _, true) l = l).
    { intros A l. induction l as [|x l IH]; simpl; by rewrite ?IH. }
    rewrite !Hid in H. fold kv in H. rewrite <- H. f_equal.
    apply snd_zip. unfold keys, vals, col.
    rewrite value_leakage_length, length_fmap. lia.
  - apply unique_distinct.
  - intros p Hp. unfold kv in Hp.
    apply list_elem_of_In, filter_In in Hp as [Hp%list_elem_of_In _].
    destruct p as [k v]. apply elem_of_zip_l in Hp. simpl.
    assert (Hk : cell_missing k = false).
    { unfold keys, col in Hp. apply list_elem_of_fmap in Hp as (r & -> & Hr).
      by apply Hkey. }
    apply (unique_covers cell_eqb cell_missing cell_eqb_refl cell_eqb_trans);
      [|done].
    apply list_elem_of_In, filter_In. split; [by apply list_elem_of_In|].
    by rewrite Hk.
Qed.

(** X10.  On the unified table the bars of "Leakage by Deviation Type"
    (the leakage summed per [status]) add up to the total value
    leakage, and so do the leakage sums per [carrier]: no row is left
    out of its group and none is counted twice. *)
Theorem leakage_groups_preserve_total (orders : list orders_row)
    (delivery : list delivery_row) (routes : list routes_row)
    (cost : list cost_row) (feedback : list feedback_row) :
  let df := process_table orders delivery routes cost feedback in
  num_eq (total (snd <$> leakage_by_status df)) (series_sum (value_leakage df))
  ∧ num_eq (total (snd <$> leakage_by_carrier df)) (series_sum (value_leakage df)).
Proof.
  intros df. split; apply leakage_groups_add_up; intros r Hr;
    apply process_table_no_missing in Hr; unfold no_missing in Hr; tauto.
Qed.

Section sort_by_facts.
Context {A : Type} (leb : A → A → bool).
Hypothesis leb_total : ∀ x y, leb x y = false → leb y x = true.
Hypothesis leb_trans : ∀ x y z, leb x y = true → leb y z = true → leb x z = true.

Lemma insert_by_sorted (x : A) (l : list A) :
  StronglySorted (λ a b, leb a b = true) l →
  StronglySorted (λ a b, leb a b = true) (insert_by leb x l).
Proof.
  induction 1 as [|y l Hl IH Hy]; simpl; [by repeat constructor|].
  destruct (leb x y) eqn:E.
  - constructor; [by constructor|]. constructor; [exact E|].
    eapply Forall_impl; [exact Hy|]. intros z Hz. by apply (leb_trans x y z).
  - constructor; [exact IH|].
    rewrite (insert_by_perm leb). constructor; [by apply leb_total | done].
Qed.

Lemma sort_by_sorted (l : list A) :
  StronglySorted (λ a b, leb a b = true) (sort_by leb l).
Proof.
  unfold sort_by. induction l as [|x l IH]; simpl; [constructor|].
  by apply insert_by_sorted.
Qed.
End sort_by_facts.

Lemma desc_leb_total (x y : cell * num) :
  desc_leb x y = false → desc_leb y x = true.
Proof.
  unfold desc_leb. destruct x as [kx x], y as [ky y]. simpl.
  destruct (is_nan y) eqn:Ey; [done|]. destruct (is_nan x) eqn:Ex; [done|].
  simpl. intros H. by apply num_leb_total.
Qed.

Lemma desc_leb_trans (x y z : cell * num) :
  desc_leb x y = true → desc_leb y z = true → desc_leb x z = true.
Proof.
  unfold desc_leb. destruct x as [kx x], y as [ky y], z as [kz z]. simpl.
  destruct (is_nan z) eqn:Ez; [done|].
  destruct (is_nan y) eqn:Ey; [done|]. destruct (is_nan x) eqn:Ex; [done|].
  simpl. intros H1 H2. by apply (num_leb_trans z y x).
Qed.

(** X11.  The list of recommended actions has at most three entries,
    exactly three when there are at least three carriers; it is in
    descending order of leakage; its entries are carrier groups of the
    table, and no carrier left out has a larger leakage than a listed
    one. *)
Theorem top_actions_are_the_largest (df : list row) :
  (length (top_actions df) ≤ 3)%nat
  ∧ length (top_actions df) = Nat.min 3 (length (leakage_by_carrier df))
  ∧ StronglySorted (λ x y, desc_leb x y = true) (top_actions df)
  ∧ ∃ rest : list (cell * num),
      leakage_by_carrier df ≡ₚ top_actions df ++ rest
      ∧ ∀ x y, x ∈ top_actions df → y ∈ rest → desc_leb x y = true.
Proof.
  unfold top_actions. set (groups := leakage_by_carrier df).
  pose proof (sort_by_sorted desc_leb desc_leb_total desc_leb_trans groups) as Hs.
  pose proof (sort_by_perm desc_leb groups) as Hp.
  rewrite <- (take_drop 3 (sort_by desc_leb groups)) in Hs, Hp.
  split; [rewrite length_take; lia|].
  split; [by rewrite length_take, <- (Permutation_length (sort_by_perm desc_leb groups))|].
  split; [by apply StronglySorted_app_1_l in Hs|].
  exists (drop 3 (sort_by desc_leb groups)). split; [by symmetry|].
  intros x y Hx Hy.
  by apply (StronglySorted_app_1_elem_of _ _ _ x y Hs).
Qed.

Lemma count_if_negb {A} (p : A → bool) (l : list A) :
  (count_if (λ x, negb (p x)) l + count_if p l = length l)%nat.
Proof. induction l as [|x l IH]; simpl; [done|]. destruct (p x); simpl; lia. Qed.

(** X12.  The two deviation figures of the dashboard agree: the rows
    that are not deviations and the active deviations together are all
    the rows; on a table with rows the perfect order rate is
    [100 * (rows - active deviations) / rows], and on a table without
    rows it is [nan]. *)
Theorem perfect_orders_complement_deviations (df : list row) :
  let n := length df in
  (count_true (negb <$> deviation df) + active_deviations df = n)%nat
  ∧ (active_deviations df ≤ n)%nat
  ∧ (n ≠ 0%nat →
     num_eq (perfect_order_rate df)
       (lit (100 * inject_Z (Z.of_nat (n - active_deviations df))
             / inject_Z (Z.of_nat n))))
  ∧ (n = 0%nat → perfect_order_rate df = NaN).
Proof.
  intros n. unfold active_deviations, count_true.
  assert (Hc : (count_if (λ b : bool, b) (negb <$> deviation df)
                + count_if (λ b : bool, b) (deviation df) = n)%nat).
  { rewrite count_if_fmap.
    rewrite (count_if_negb (λ b : bool, b)). apply deviation_length. }
  split; [exact Hc|]. split; [lia|]. split.
  - intros Hn. unfold perfect_order_rate, bool_mean, count_true.
    rewrite length_fmap, deviation_length. fold n.
    assert (Hq : ¬ (inject_Z (Z.of_nat n) == 0)%Q).
    { change 0%Q with (inject_Z 0). rewrite inject_Z_injective. lia. }
    unfold lit, num_div. apply qzero_false in Hq as E. rewrite E. simpl.
    assert (Hk : count_if (λ b : bool, b) (negb <$> deviation df)
                 = (n - count_if (λ b : bool, b) (deviation df))%nat) by lia.
    rewrite Hk. field. exact Hq.
  - intros Hn. unfold perfect_order_rate, bool_mean, count_true.
    rewrite length_fmap, deviation_length. fold n. rewrite Hn.
    assert (Hd : deviation df = []).
    { apply nil_length_inv. by rewrite deviation_length. }
    by rewrite Hd.
Qed.

Lemma perfect_orders_complement_deviations_witness :
  length two_df ≠ 0%nat
  ∧ active_deviations two_df = 1%nat
  ∧ num_eq (perfect_order_rate two_df) (lit 50).
Proof.
  assert (Hn : length two_df ≠ 0%nat) by (vm_compute; congruence).
  split; [exact Hn|]. split; [reflexivity|].
  destruct (perfect_orders_complement_deviations two_df) as (_ & _ & Hrate & _).
  etrans; [exact (Hrate Hn)|]. vm_compute. reflexivity.
Defined.

(** ** The process flow *)

Lemma label_index_lt (lbls : list cell) (x : cell) (i : nat) :
  label_index lbls x = Some i → (i < length lbls)%nat.
Proof.
  revert i. induction lbls as [|l lbls IH]; intros i; simpl; [done|].
  destruct (cell_eqb l x); [intros [= <-]; lia|].
  destruct (label_index lbls x) as [j|]; simpl; [|done].
  intros [= <-]. specialize (IH j eq_refl). lia.
Qed.

Lemma label_index_found (lbls : list cell) (x : cell) :
  (∃ l, l ∈ lbls ∧ cell_eqb l x = true) → is_Some (label_index lbls x).
Proof.
  intros (l & Hl & Hx). induction lbls as [|l0 lbls IH];
    [by apply elem_of_nil in Hl|].
  simpl. destruct (cell_eqb l0 x) eqn:E; [eauto|].
  apply elem_of_cons in Hl as [->|Hl]; [congruence|].
  destruct (IH Hl) as [i Hi]. rewrite Hi. simpl. eauto.
Qed.

Lemma label_index_eqb (lbls : list cell) (x y : cell) :
  cell_eqb x y = true → label_index lbls x = label_index lbls y.
Proof.
  intros Hxy. induction lbls as [|l lbls IH]; simpl; [done|].
  assert (E : cell_eqb l x = cell_eqb l y).
  { apply eq_true_iff_eq. split; intros H.
    - by apply (cell_eqb_trans l x y).
    - apply (cell_eqb_trans l y x); [done|]. by rewrite cell_eqb_sym. }
  by rewrite E, IH.
Qed.

Lemma mapM_label_index (lbls : list cell) (xs : list cell) :
  Forall (λ x, is_Some (label_index lbls x)) xs →
  mapM (label_index lbls) xs = Some (label_pos lbls <$> xs).
Proof.
  intros H. apply mapM_Some, Forall2_fmap_r, Forall_Forall2_diag.
  eapply Forall_impl; [exact H|]. intros x [i Hi]. unfold label_pos.
  unfold compose. cbv beta. by rewrite Hi.
Qed.

Lemma group_keys_elem {K} (eqb leb : K → K → bool) (isna : K → bool)
    (keys : list K) (k : K) :
  k ∈ group_keys eqb leb isna keys → k ∈ keys ∧ isna k = false.
Proof.
  unfold group_keys. rewrite (sort_by_perm leb). intros Hk.
  apply unique_elem in Hk.
  apply list_elem_of_In, filter_In in Hk as [Hk%list_elem_of_In Hna].
  split; [done|]. by apply negb_true_iff.
Qed.

Lemma flow_key_present (df : list row) (g : flow_key * nat) :
  g ∈ flow df → flow_key_missing (fst g) = false.
Proof.
  unfold flow, groupby_agg. intros Hg.
  apply list_elem_of_fmap in Hg as (k & -> & Hk).
  apply group_keys_elem in Hk as [_ Hk]. exact Hk.
Qed.

(** Every cell of a flow group is found among the labels. *)
Lemma flow_cells_are_labels (df : list row) (g : flow_key * nat) :
  g ∈ flow df →
  is_Some (label_index (labels (flow df)) (flow_priority (fst g)))
  ∧ is_Some (label_index (labels (flow df)) (flow_carrier (fst g)))
  ∧ is_Some (label_index (labels (flow df)) (flow_status (fst g))).
Proof.
  intros Hg. pose proof (flow_key_present df g Hg) as Hna.
  unfold flow_key_missing in Hna.
  apply orb_false_iff in Hna as [Hna Hs]. apply orb_false_iff in Hna as [Hp Hc].
  assert (Hin : ∀ c, c ∈ [flow_priority (fst g); flow_carrier (fst g);
                          flow_status (fst g)] →
                cell_missing c = false →
                is_Some (label_index (labels (flow df)) c)).
  { intros c Hc' Hm. apply label_index_found. unfold labels.
    destruct (unique_covers cell_eqb cell_missing cell_eqb_refl cell_eqb_trans
                (flat_map (λ g, [flow_priority (fst g); flow_carrier (fst g);
                                 flow_status (fst g)]) (flow df)) c)
      as (l & Hl & Hcl); [|done|].
    - apply list_elem_of_In, in_flat_map. exists g.
      split; by apply list_elem_of_In.
    - exists l. split; [done|]. by rewrite cell_eqb_sym. }
  split; [|split]; apply Hin; try done.
  - left.
  - right; left.
  - right; right; left.
Qed.

(** The diagram [process_flow] builds, written out. *)
Lemma process_flow_value (df : list row) :
  let fl := flow df in
  let lbls := labels fl in
  process_flow df
  = Some {| node_label := lbls;
            link_source := (label_pos lbls ∘ flow_priority ∘ fst <$> fl)
                           ++ (label_pos lbls ∘ flow_carrier ∘ fst <$> fl);
            link_target := (label_pos lbls ∘ flow_carrier ∘ fst <$> fl)
                           ++ (label_pos lbls ∘ flow_status ∘ fst <$> fl);
            link_value := (snd <$> fl) ++ (snd <$> fl) |}.
Proof.
  intros fl lbls. unfold process_flow. fold fl. fold lbls.
  assert (H : ∀ g, g ∈ fl → _) by (intros g; apply (flow_cells_are_labels df g)).
  rewrite !mapM_label_index.
  - simpl. by rewrite !list_fmap_compose.
  - apply Forall_fmap, Forall_forall. intros g Hg. apply (H g Hg).
  - apply Forall_fmap, Forall_forall. intros g Hg. apply (H g Hg).
  - apply Forall_fmap, Forall_forall. intros g Hg. apply (H g Hg).
Qed.

Section groupby_counts.
Context {K V : Type} (eqb : K → K → bool).
Hypothesis eqb_sym : ∀ a b, eqb a b = eqb b a.
Hypothesis eqb_trans : ∀ a b c, eqb a b = true → eqb b c = true → eqb a c = true.

Lemma filter_length_split (p : K * V → bool) (kv : list (K * V)) :
  (length (List.filter p kv) + length (List.filter (λ x, negb (p x)) kv)
   = length kv)%nat.
Proof.
  induction kv as [|x kv IH]; simpl; [done|]. destruct (p x); simpl; lia.
Qed.

(** The sizes of the groups add up to the number of rows. *)
Lemma grouped_count (ks : list K) (kv : list (K * V)) :
  distinct_keys eqb ks →
  (∀ p, p ∈ kv → ∃ k, k ∈ ks ∧ eqb (fst p) k = true) →
  sum_list ((λ k, length (List.filter (λ p, eqb (fst p) k) kv)) <$> ks)
  = length kv.
Proof.
  revert kv. induction ks as [|k ks IH]; intros kv Hd Hcov.
  - destruct kv as [|p kv]; [done|].
    destruct (Hcov p) as (k & Hk & _); [left|]. by apply elem_of_nil in Hk.
  - destruct Hd as [Hk Hd]. rewrite fmap_cons. simpl.
    rewrite <- (filter_length_split (λ p, eqb (fst p) k) kv). f_equal.
    set (kv' := List.filter (λ x, negb (eqb (fst x) k)) kv).
    rewrite <- (IH kv' Hd).
    + f_equal. apply list_fmap_ext. intros i k' Hk'.
      apply list_elem_of_lookup_2 in Hk'. f_equal. unfold kv'.
      symmetry. apply filter_filter_implied. intros x _ Hx.
      apply negb_true_iff. destruct (eqb (fst x) k) eqn:E; [|done].
      assert (Hkk : eqb k' k = true).
      { apply (eqb_trans k' (fst x) k); [|done]. by rewrite eqb_sym. }
      eapply Forall_forall in Hk; [|exact Hk']. congruence.
    + intros p Hp. unfold kv' in Hp.
      apply list_elem_of_In, filter_In in Hp as [Hp%list_elem_of_In Hne].
      destruct (Hcov p Hp) as (k0 & Hk0 & Hpk0).
      apply elem_of_cons in Hk0 as [->|Hk0]; [|eauto].
      rewrite Hpk0 in Hne. done.
Qed.
End groupby_counts.

Lemma flow_key_eqb_refl (k : flow_key) :
  flow_key_missing k = false → flow_key_eqb k k = true.
Proof.
  unfold flow_key_missing, flow_key_eqb. intros H.
  apply orb_false_iff in H as [H Hs]. apply orb_false_iff in H as [Hp Hc].
  by rewrite !cell_eqb_refl.
Qed.

Lemma flow_key_eqb_sym (a b : flow_key) : flow_key_eqb a b = flow_key_eqb b a.
Proof.
  unfold flow_key_eqb.
  by rewrite (cell_eqb_sym (flow_priority a)), (cell_eqb_sym (flow_carrier a)),
    (cell_eqb_sym (flow_status a)).
Qed.

Lemma flow_key_eqb_trans (a b c : flow_key) :
  flow_key_eqb a b = true → flow_key_eqb b c = true → flow_key_eqb a c = true.
Proof.
  unfold flow_key_eqb. rewrite !andb_true_iff.
  intros [[H1 H2] H3] [[H4 H5] H6].
  repeat split; eapply cell_eqb_trans; eassumption.
Qed.

(** X13.  On the unified table every row is counted in exactly one
    flow group: the counts of the groups add up to the number of rows,
    and the link values of the diagram, which list every count twice,
    to twice that number. *)
Theorem flow_counts_every_row (orders : list orders_row)
    (delivery : list delivery_row) (routes : list routes_row)
    (cost : list cost_row) (feedback : list feedback_row) :
  let df := process_table orders delivery routes cost feedback in
  sum_list (snd <$> flow df) = length df
  ∧ ∃ sk : sankey,
      process_flow df = Some sk
      ∧ sum_list (link_value sk) = (2 * length df)%nat.
Proof.
  intros df.
  assert (Hsum : sum_list (snd <$> flow df) = length df).
  { unfold flow, groupby_agg, group_keys, group_values.
    rewrite <- list_fmap_compose.
    rewrite (sort_by_perm flow_key_leb).
    set (ks := unique flow_key_eqb _). set (kv := zip (row_flow_key <$> df) df).
    erewrite list_fmap_ext.
    - rewrite (grouped_count flow_key_eqb flow_key_eqb_sym flow_key_eqb_trans ks kv).
      + unfold kv. rewrite length_zip, length_fmap. lia.
      + apply unique_distinct.
      + intros [k r] Hp. apply elem_of_zip_l in Hp. simpl.
        assert (Hk : flow_key_missing k = false).
        { apply list_elem_of_fmap in Hp as (r' & -> & Hr').
          apply process_table_no_missing in Hr'.
          unfold no_missing in Hr'.
          destruct Hr' as (_ & Hp' & _ & _ & Hs' & _ & _ & Hc' & _).
          unfold flow_key_missing, row_flow_key, flow_priority, flow_carrier,
            flow_status. simpl. by rewrite Hp', Hc', Hs'. }
        apply (unique_covers flow_key_eqb flow_key_missing flow_key_eqb_refl
                 flow_key_eqb_trans); [|done].
        apply list_elem_of_In, filter_In. split; [by apply list_elem_of_In|].
        by rewrite Hk.
    - intros i k _. unfold compose. simpl. by rewrite length_fmap. }
  split; [exact Hsum|]. eexists. split; [apply process_flow_value|].
  simpl. rewrite sum_list_with_app, Hsum. lia.
Qed.

(** X14.  The process flow is always drawn: no label look-up fails.
    The diagram has two links per flow group, and every link starts
    and ends at an index of the list of node labels. *)
Theorem process_flow_is_well_formed (df : list row) :
  ∃ sk : sankey,
    process_flow df = Some sk
    ∧ node_label sk = labels (flow df)
    ∧ length (link_source sk) = (2 * length (flow df))%nat
    ∧ length (link_target sk) = (2 * length (flow df))%nat
    ∧ length (link_value sk) = (2 * length (flow df))%nat
    ∧ Forall (λ i, (i < length (node_label sk))%nat) (link_source sk)
    ∧ Forall (λ i, (i < length (node_label sk))%nat) (link_target sk).
Proof.
  eexists. split; [apply process_flow_value|]. simpl.
  rewrite !length_app, !length_fmap.
  assert (Hpos : ∀ (f : flow_key → cell),
    (∀ g, g ∈ flow df → is_Some (label_index (labels (flow df)) (f (fst g)))) →
    Forall (λ i, (i < length (labels (flow df)))%nat)
      (label_pos (labels (flow df)) ∘ f ∘ fst <$> flow df)).
  { intros f Hf. apply Forall_fmap, Forall_forall. intros g Hg.
    destruct (Hf g Hg) as [i Hi]. unfold compose, label_pos. rewrite Hi.
    by apply label_index_lt in Hi. }
  repeat split; try lia; apply Forall_app; split; apply Hpos;
    intros g Hg; apply (flow_cells_are_labels df g Hg).
Qed.

Lemma label_index_own (lbls : list cell) (i : nat) (l : cell) :
  distinct_keys cell_eqb lbls → Forall (λ c, cell_missing c = false) lbls →
  lbls !! i = Some l → label_index lbls l = Some i.
Proof.
  revert i. induction lbls as [|k lbls IH]; intros i Hd Hm Hi; [done|].
  destruct Hd as [Hk Hd]. apply Forall_cons in Hm as [Hkm Hm].
  destruct i as [|i]; simpl in *.
  - injection Hi as ->. by rewrite cell_eqb_refl.
  - assert (E : cell_eqb k l = false).
    { rewrite cell_eqb_sym. eapply Forall_forall in Hk; [exact Hk|].
      by eapply list_elem_of_lookup_2. }
    by rewrite E, (IH i Hd Hm Hi).
Qed.

(** X16.  The labels of the diagram are pairwise different, and the
    dictionary [label_index] maps each label to its own position in
    the list of labels. *)
Theorem label_index_inverts_labels (df : list row) (i : nat) (l : cell) :
  labels (flow df) !! i = Some l →
  label_index (labels (flow df)) l = Some i
  ∧ distinct_keys cell_eqb (labels (flow df)).
Proof.
  intros Hi. split; [|apply unique_distinct].
  apply label_index_own; [apply unique_distinct| |done].
  apply Forall_forall. intros c Hc. unfold labels in Hc.
  apply unique_elem, list_elem_of_In, in_flat_map in Hc as (g & Hg & Hc).
  apply list_elem_of_In in Hg, Hc.
  pose proof (flow_key_present df g Hg) as Hna. unfold flow_key_missing in Hna.
  apply orb_false_iff in Hna as [Hna Hs]. apply orb_false_iff in Hna as [Hp Hca].
  repeat (apply elem_of_cons in Hc as [->|Hc]; [done|]).
  by apply elem_of_nil in Hc.
Qed.

Lemma label_index_inverts_labels_witness :
  labels (flow two_df) !! 4%nat = Some (CNum (lit 0))
  ∧ label_index (labels (flow two_df)) (CNum (lit 0)) = Some 4%nat.
Proof.
  assert (H : labels (flow two_df) !! 4%nat = Some (CNum (lit 0)))
    by reflexivity.
  split; [exact H|].
  exact (proj1 (label_index_inverts_labels two_df 4 (CNum (lit 0)) H)).
Defined.

(** X17.  A flow group whose carrier and status are the same cell
    gives a link from a node to itself.  This is what the zero fill
    produces for orders without delivery and route rows: their carrier
    and their status are both the number 0. *)
Theorem equal_carrier_and_status_loop (df : list row) (i : nat)
    (k : flow_key) (cnt : nat) :
  flow df !! i = Some (k, cnt) →
  cell_eqb (flow_carrier k) (flow_status k) = true →
  ∃ (sk : sankey) (node : nat),
    process_flow df = Some sk
    ∧ link_source sk !! (length (flow df) + i)%nat = Some node
    ∧ link_target sk !! (length (flow df) + i)%nat = Some node.
Proof.
  intros Hi Heq. eexists _, _. split; [apply process_flow_value|]. simpl.
  rewrite !lookup_app_r by (rewrite length_fmap; lia).
  rewrite !length_fmap, !Nat.add_sub', !list_lookup_fmap, Hi. simpl.
  split; [reflexivity|]. unfold compose, label_pos. simpl.
  by rewrite (label_index_eqb _ _ _ Heq).
Qed.

Lemma equal_carrier_and_status_loop_witness :
  flow bare_df !! 0%nat = Some ((CStr "High", CNum (lit 0), CNum (lit 0)), 2%nat)
  ∧ ∃ (sk : sankey) (node : nat),
      process_flow bare_df = Some sk
      ∧ link_source sk !! 1%nat = Some node
      ∧ link_target sk !! 1%nat = Some node.
Proof.
  assert (H : flow bare_df !! 0%nat
              = Some ((CStr "High", CNum (lit 0), CNum (lit 0)), 2%nat))
    by reflexivity.
  split; [exact H|].
  exact (equal_carrier_and_status_loop bare_df 0 _ 2 H eq_refl).
Defined.

(** ** The simulator within the slider ranges *)

Lemma simulated_saving_fin (b : Q) (d g r : Z) :
  simulated_saving (Fin b) d g r
  = Fin (b * (inject_Z d / 100 * (4 # 10) + inject_Z g / 100 * (4 # 10)
              + inject_Z r / 100 * (2 # 10))).
Proof. reflexivity. Qed.

Lemma slider_factor_bounds (d g r : Z) :
  slider_ok d g r →
  let f := (inject_Z d / 100 * (4 # 10) + inject_Z g / 100 * (4 # 10)
            + inject_Z r / 100 * (2 # 10))%Q in
  (0 <= f)%Q ∧ (f <= 46 # 100)%Q
  ∧ (¬ (d = 0%Z ∧ g = 0%Z ∧ r = 0%Z) → 0 < f)%Q.
Proof.
  intros ([Hd0 Hd1] & [Hg0 Hg1] & [Hr0 Hr1]) f.
  assert (Hpos : ¬ (d = 0%Z ∧ g = 0%Z ∧ r = 0%Z) → (0 < d ∨ 0 < g ∨ 0 < r)%Z)
    by lia.
  rewrite Zle_Qle in Hd0, Hd1, Hg0, Hg1, Hr0, Hr1.
  assert (Hd : (inject_Z d / 100 == inject_Z d * (1 # 100))%Q) by (by field).
  assert (Hg : (inject_Z g / 100 == inject_Z g * (1 # 100))%Q) by (by field).
  assert (Hr : (inject_Z r / 100 == inject_Z r * (1 # 100))%Q) by (by field).
  unfold f. rewrite Hd, Hg, Hr.
  change (inject_Z 0) with 0%Q in *. change (inject_Z 50) with 50%Q in *.
  change (inject_Z 30) with 30%Q in *.
  split; [lra|]. split; [lra|]. intros Hne.
  destruct (Hpos Hne) as [H|[H|H]]; rewrite Zlt_Qlt in H;
    change (inject_Z 0) with 0%Q in H; lra.
Qed.

(** X18.  With the sliders within their ranges and a base leakage that
    is finite and not negative, the projected saving lies between 0
    and 46 % of the base leakage, and the new baseline between 54 % of
    the base leakage and the base leakage: it is never negative. *)
Theorem simulator_stays_within_base (df : list row) (b : Q)
    (delay_reduction damage_reduction route_saving : Z) :
  slider_ok delay_reduction damage_reduction route_saving →
  base_leakage df = Fin b → (0 <= b)%Q →
  ∃ s n : Q,
    projected_savings (simulator df delay_reduction damage_reduction route_saving)
    = Fin s
    ∧ new_baseline (simulator df delay_reduction damage_reduction route_saving)
      = Fin n
    ∧ (0 <= s)%Q ∧ (s <= (46 # 100) * b)%Q
    ∧ ((54 # 100) * b <= n)%Q ∧ (n <= b)%Q.
Proof.
  intros Hok Hbase Hb. unfold simulator. rewrite Hbase, simulated_saving_fin.
  destruct (slider_factor_bounds _ _ _ Hok) as (Hf0 & Hf1 & _).
  set (f := (inject_Z delay_reduction / 100 * (4 # 10)
             + inject_Z damage_reduction / 100 * (4 # 10)
             + inject_Z route_saving / 100 * (2 # 10))%Q) in *.
  eexists _, _. split; [reflexivity|]. split; [reflexivity|].
  repeat split; nra.
Qed.

Lemma simulator_stays_within_base_witness :
  slider_ok 20 10 15
  ∧ ∃ s n : Q,
      projected_savings (simulator one_df 20 10 15) = Fin s
      ∧ new_baseline (simulator one_df 20 10 15) = Fin n
      ∧ (0 <= s)%Q ∧ (n <= 100)%Q.
Proof.
  assert (Hok : slider_ok 20 10 15) by (unfold slider_ok; lia).
  assert (Hb : (0 <= 0 + (1 # 10) * 1000)%Q) by lra.
  split; [exact Hok|].
  destruct (simulator_stays_within_base one_df _ 20 10 15 Hok eq_refl Hb)
    as (s & n & Hs & Hn & H0 & _ & _ & H1).
  exists s, n. repeat split; try done. lra.
Defined.

(** X19.  With a positive finite base leakage and the sliders within
    their ranges, the ROI horizon is a finite positive number of months
    as soon as one slider is above 0: the division by zero is met only
    with the three sliders at 0 (or a base leakage of 0). *)
Theorem roi_horizon_finite_unless_no_saving (df : list row) (b : Q)
    (delay_reduction damage_reduction route_saving : Z) :
  slider_ok delay_reduction damage_reduction route_saving →
  base_leakage df = Fin b → (0 < b)%Q →
  ¬ (delay_reduction = 0%Z ∧ damage_reduction = 0%Z ∧ route_saving = 0%Z) →
  ∃ q : Q,
    roi_horizon (simulator df delay_reduction damage_reduction route_saving)
    = Fin q
    ∧ (0 < q)%Q.
Proof.
  intros Hok Hbase Hb Hne. unfold simulator. rewrite Hbase, simulated_saving_fin.
  destruct (slider_factor_bounds _ _ _ Hok) as (_ & _ & Hf).
  specialize (Hf Hne).
  set (f := (inject_Z delay_reduction / 100 * (4 # 10)
             + inject_Z damage_reduction / 100 * (4 # 10)
             + inject_Z route_saving / 100 * (2 # 10))%Q) in *.
  assert (Hs : (0 < b * f)%Q) by nra.
  cbn [roi_horizon]. unfold lit, num_div.
  assert (E : qzero (b * f) = false) by (apply qzero_false; lra).
  rewrite E. eexists. split; [reflexivity|].
  apply Qlt_shift_div_l; lra.
Qed.

Lemma roi_horizon_finite_unless_no_saving_witness :
  slider_ok 20 10 15
  ∧ ∃ q : Q, roi_horizon (simulator one_df 20 10 15) = Fin q ∧ (0 < q)%Q.
Proof.
  assert (Hok : slider_ok 20 10 15) by (unfold slider_ok; lia).
  assert (Hb : (0 < 0 + (1 # 10) * 1000)%Q) by lra.
  split; [exact Hok|].
  apply (roi_horizon_finite_unless_no_saving one_df _ 20 10 15 Hok eq_refl Hb).
  lia.
Defined.
